(** * SRS client: data plane and audio transmitter

    A shallow embedding of the SimpleRadio-Standalone client of skyeye:
    the data client (package [data]: peer directory, [Send], [Run]) and the
    transmit path of the audio client (package [audio]: [tx],
    [waitForClearChannel], [writePackets], [transmit], [Run]).

    Conventions.
    - Go's [time.Time] and [time.Duration] are integers counting
      nanoseconds ([Z]).  The quantities the code computes (a few frame
      lengths around the current time) are far from the 64-bit range, so
      no wrap-around is written out.
    - Everything the code does to the outside (the logger, the socket, the
      clock, channels and locks) is recorded as a trace of events in a
      [World]; what the outside decides (whether a write fails, how long an
      operation really takes, random numbers) is read from the [World]. *)

From Stdlib Require Import ZArith List String Lia.
From Stdlib.Strings Require Import Byte.
From stdpp Require Import base option list gmap strings fin_maps.

Local Open Scope Z_scope.

(** ** Runtime: errors, events, the world *)

Module rt.

Abbreviation Bytes := (list Byte.byte).

(** Go [error] values: made by [errors.New], wrapped by
    [fmt.Errorf("...: %w", err)]. *)
Inductive error : Type :=
| errors_New (msg : string)
| fmt_Errorf (msg : string) (wrapped : error).

(** zerolog levels used by the two packages. *)
Inductive Level : Type := LTrace | LDebug | LInfo | LWarn | LError.

Inductive Event : Type :=
| EvLog (lvl : Level) (msg : string)
    (* a zerolog line; structured fields are not recorded *)
| EvGo (name : string)
    (* [go func() {...}()] *)
| EvCloseChan (name : string)
    (* [close(ch)] *)
| EvWrite (at_ : Z) (b : Bytes) (err : option error)
    (* [connection.Write(b)] called at time [at_] and what it returned *)
| EvSleep (at_ : Z) (d : Z)
    (* [time.Sleep(d)] called at time [at_] *)
| EvLock
| EvUnlock
| EvCloseConn.

Record World : Type := mkWorld {
  clock : Z;
    (* the monotonic clock, in ns *)
  lapses : list N;
    (* extra time taken by the successive time-consuming operations
       (sleep overshoot, encoding, socket latency); none left: 0 *)
  write_errs : list (option error);
    (* what the successive [Write] calls return; none left: success *)
  close_err : option error;
    (* what [connection.Close] returns *)
  rands : list N;
    (* the successive values of the random source *)
  trace : list Event
    (* what has happened so far, oldest first *)
}.

Definition emit (e : Event) (w : World) : World :=
  mkWorld (clock w) (lapses w) (write_errs w) (close_err w) (rands w)
          (trace w ++ [e]).

(** Some time passes: the next lapse is consumed. *)
Definition elapse (w : World) : World :=
  match lapses w with
  | [] => w
  | j :: js =>
      mkWorld (clock w + Z.of_N j) js (write_errs w) (close_err w)
              (rands w) (trace w)
  end.

Definition advance (d : Z) (w : World) : World :=
  mkWorld (clock w + d) (lapses w) (write_errs w) (close_err w) (rands w)
          (trace w).

(** [time.Now()] *)
Definition time_Now (w : World) : Z := clock w.

(** [time.Until(t)] *)
Definition time_Until (t : Z) (w : World) : Z := t - clock w.

(** [time.Sleep(d)]: returns at once when [d <= 0]; otherwise pauses for
    [d] and whatever the scheduler adds. *)
Definition time_Sleep (d : Z) (w : World) : World :=
  let w1 := emit (EvSleep (clock w) d) w in
  if d <=? 0 then w1 else elapse (advance d w1).

(** [connection.Write(b)]: the call is recorded with the time it is made at
    and with its outcome; the call itself takes some time. *)
Definition conn_Write (b : Bytes) (w : World) : option error * World :=
  match write_errs w with
  | [] => (None, elapse (emit (EvWrite (clock w) b None) w))
  | r :: rs =>
      (r, elapse (emit (EvWrite (clock w) b r)
                    (mkWorld (clock w) (lapses w) rs (close_err w) (rands w)
                             (trace w))))
  end.

(** [connection.Close()] *)
Definition conn_Close (w : World) : option error * World :=
  (close_err w, emit EvCloseConn w).

(** [rand.IntN(n)] *)
Definition rand_IntN (n : Z) (w : World) : Z * World :=
  match rands w with
  | [] => (0, w)
  | r :: rs =>
      (Z.of_N r mod n,
       mkWorld (clock w) (lapses w) (write_errs w) (close_err w) rs
               (trace w))
  end.

Definition log (lvl : Level) (msg : string) : World -> World :=
  emit (EvLog lvl msg).

Definition is_write (e : Event) : bool :=
  match e with EvWrite _ _ _ => true | _ => false end.

Definition writes (w : World) : list Event := List.filter is_write (trace w).

(** What the next [Write] call will return. *)
Definition next_write_err (w : World) : option error :=
  match write_errs w with
  | [] => None
  | r :: _ => r
  end.

(** The trace only grows: [w'] is [w] some events later. *)
Definition extends (w w' : World) : Prop :=
  exists evs, trace w' = trace w ++ evs.

(** The times at which the writes of a trace were made. *)
Definition write_times (t : list Event) : list Z :=
  omap (fun e => match e with EvWrite at_ _ _ => Some at_ | _ => None end) t.

(** The sleeps of a trace: when each was called, and for how long. *)
Definition sleeps (t : list Event) : list (Z * Z) :=
  omap (fun e => match e with EvSleep at_ d => Some (at_, d) | _ => None end) t.

(** The events of [w'] that are not yet in [w]. *)
Definition new_events (w w' : World) : list Event :=
  drop (length (trace w)) (trace w').

(** How many writes had succeeded when channel [name] was closed ([None]:
    it never was). *)
Fixpoint writes_ok_before_close (name : string) (t : list Event)
  : option nat :=
  match t with
  | [] => None
  | EvCloseChan n :: rest =>
      if String.eqb n name then Some O
      else writes_ok_before_close name rest
  | EvWrite _ _ None :: rest => S <$> writes_ok_before_close name rest
  | _ :: rest => writes_ok_before_close name rest
  end.

(** The ready channel is closed only after two writes (those of the
    handshake) have succeeded. *)
Definition ready_after_handshake (t : list Event) : Prop :=
  exists n, writes_ok_before_close "readyCh" t = Some n /\ (2 <= n)%nat.

(** The bytes handed to the writes of a trace, in order. *)
Definition write_bytes (t : list Event) : list Bytes :=
  omap (fun e => match e with EvWrite _ b _ => Some b | _ => None end) t.

(** The error at the bottom of a chain of [%w] wrappings (what repeated
    [errors.Unwrap] arrives at). *)
Fixpoint cause (e : error) : error :=
  match e with
  | errors_New _ => e
  | fmt_Errorf _ wrapped => cause wrapped
  end.

Definition is_log (e : Event) : bool :=
  match e with EvLog _ _ => true | _ => false end.

Definition is_lock (e : Event) : bool :=
  match e with EvLock | EvUnlock => true | _ => false end.

(** From [w] to [w'] only log lines and writes happened: the connection
    was not closed, and the outcomes of the writes were consumed in
    order. *)
Definition runs_on (w w' : World) : Prop :=
  close_err w' = close_err w
  /\ write_errs w' `suffix_of` write_errs w
  /\ exists evs,
       trace w' = trace w ++ evs
       /\ Forall (fun e => is_log e || is_write e = true) evs.

Definition is_sleep (e : Event) : bool :=
  match e with EvSleep _ _ => true | _ => false end.

End rt.

(** ** Package [types]

    The package is not part of the sources at hand: its declarations are
    written after the specification's data model (section 3). *)

Module types.

(** Modelled from the spec: the [GUID] type, an opaque 22-character
    identifier (a Go string). *)
Definition GUID : Type := string.

(** Modelled from the spec: the [Coalition] enumeration,
    {spectator, red, blue}. *)
Inductive Coalition : Type := Spectator | Red | Blue.

#[global] Instance Coalition_eq_dec : EqDecision Coalition.
Proof. solve_decision. Defined.

(** Modelled from the spec: [IsSpectator]; the spectator coalition matches
    all coalitions. *)
Definition IsSpectator (c : Coalition) : bool :=
  match c with Spectator => true | _ => false end.

(** Modelled from the spec: the [Radio] struct: frequency in Hz (an
    integer-valued real), modulation, encryption flag, encryption key
    index, guard-channel flag. *)
Module Radio.
Record t : Type := mk {
  Frequency : Z;
  Modulation : N;
  IsEncrypted : bool;
  EncryptionKey : N;
  GuardFrequency : bool
}.
End Radio.

(** Modelled from the spec: two radios match when their (frequency,
    modulation, encryption state/key) tuples are equal and both are tuned,
    that is above 8 MHz. *)
Definition Radio_IsSameFrequency (r o : Radio.t) : bool :=
  (8000000 <? Radio.Frequency r) && (8000000 <? Radio.Frequency o)
  && (Radio.Frequency r =? Radio.Frequency o)
  && (Radio.Modulation r =? Radio.Modulation o)%N
  && Bool.eqb (Radio.IsEncrypted r) (Radio.IsEncrypted o)
  && (Radio.EncryptionKey r =? Radio.EncryptionKey o)%N.

(** Modelled from the spec: the IFF and ambient-noise states of a
    [RadioInfo]; the client never reads them. *)
Inductive IFF : Type := NewIFF.
Inductive Ambient : Type := NewAmbient.

Module RadioInfo.
Record t : Type := mk {
  UnitID : Z;
  Unit : string;
  Radios : list Radio.t;
  IFF : types.IFF;
  Ambient : types.Ambient
}.
End RadioInfo.

(** Modelled from the spec: two RadioInfos are on frequency iff at least
    one radio pair across their sequences matches. *)
Definition RadioInfo_IsOnFrequency (i other : RadioInfo.t) : bool :=
  existsb (fun r => existsb (Radio_IsSameFrequency r) (RadioInfo.Radios other))
          (RadioInfo.Radios i).

(** Modelled from the spec: the optional position of a client; the client
    never reads it. *)
Inductive Position : Type := mkPosition.

Module ClientInfo.
Record t : Type := mk {
  Name : string;
  GUID : types.GUID;
  Coalition : types.Coalition;
  RadioInfo : types.RadioInfo.t;
  Position : option types.Position
}.
End ClientInfo.

(** Modelled from the spec: the message types; [MessageOther] stands for
    any value outside the nine named ones. *)
Inductive MessageType : Type :=
| MessagePing
| MessageServerSettings
| MessageVersionMismatch
| MessageSync
| MessageUpdate
| MessageRadioUpdate
| MessageClientDisconnect
| MessageExternalAWACSModePassword
| MessageExternalAWACSModeDisconnect
| MessageOther (n : Z).

Module Message.
Record t : Type := mk {
  Version : string;
  Type_ : MessageType;
  Client : ClientInfo.t;
  Clients : list ClientInfo.t;
  ExternalAWACSModePassword : string
}.
End Message.

Module ClientConfiguration.
Record t : Type := mk {
  Address : string;
  ClientName : string;
  ExternalAWACSModePassword : string;
  Coalition : types.Coalition;
  Radios : list Radio.t;
  Mute : bool
}.
End ClientConfiguration.

(** The zero values Go gives to fields that are left out. *)
Definition zero_RadioInfo : RadioInfo.t :=
  RadioInfo.mk 0 "" [] NewIFF NewAmbient.
Definition zero_ClientInfo : ClientInfo.t :=
  ClientInfo.mk "" "" Spectator zero_RadioInfo None.

End types.

(** ** Package [data]: the SRS data client *)

Module data.
Import rt types.

(** [dataClient].  The TCP connection is an operating-system resource and
    lives in the [World]; [clientsLock] guards [clients] between the
    message router, which is the only writer, and concurrent readers, and
    has no effect on what the router computes. *)
Record dataClient : Type := mkDataClient {
  clientInfo : ClientInfo.t;
  externalAWACSModePassword : string;
  clients : gmap string ClientInfo.t;
  lastReceived : Z
}.

Definition set_clients (m : gmap string ClientInfo.t) (c : dataClient)
  : dataClient :=
  mkDataClient (clientInfo c) (externalAWACSModePassword c) m (lastReceived c).

Definition set_lastReceived (t : Z) (c : dataClient) : dataClient :=
  mkDataClient (clientInfo c) (externalAWACSModePassword c) (clients c) t.

(** The client [NewClient] returns once the address is resolved and the
    connection dialled (either failure returns an error and no client). *)
Definition NewClient (guid : GUID) (config : ClientConfiguration.t)
  : dataClient :=
  {| clientInfo :=
       {| ClientInfo.Name := ClientConfiguration.ClientName config;
          ClientInfo.GUID := guid;
          ClientInfo.Coalition := ClientConfiguration.Coalition config;
          ClientInfo.RadioInfo :=
            {| RadioInfo.UnitID := 100000002;
               RadioInfo.Unit := "External AWACS";
               RadioInfo.Radios := ClientConfiguration.Radios config;
               RadioInfo.IFF := NewIFF;
               RadioInfo.Ambient := NewAmbient |};
          ClientInfo.Position := Some mkPosition |};
     externalAWACSModePassword :=
       ClientConfiguration.ExternalAWACSModePassword config;
     clients := ∅;
     lastReceived := 0 |}.

(** [Name] *)
Definition Name (c : dataClient) : string := ClientInfo.Name (clientInfo c).

(** What the select statement of [Run]'s loop receives, in order.  The
    reader goroutine is represented by what it delivers on its two
    channels. *)
Inductive Select : Type :=
| RecvMessage (m : Message.t)
    (* [case m := <-messageChan] *)
| CtxDone (drained : bool)
    (* [case <-ctx.Done()]; [drained]: whether the reader then still
       delivers something on one of its channels *)
| RecvError (e : error).
    (* [case err := <-errorChan] *)

(** How a call ends: it returns, or it waits forever. *)
Inductive Outcome : Type :=
| Returned (err : option error)
| Blocked.

Section Client.

(** [json.Marshal] on messages: the bytes, or an error. *)
Variable json_Marshal : Message.t -> Bytes + error.

(** [logMessageAndIgnore] *)
Definition logMessageAndIgnore (message : Message.t) (w : World) : World :=
  log LDebug "received message" w.

(** [syncClient] *)
Definition syncClient (c : dataClient) (other : ClientInfo.t) (w : World)
  : dataClient * World :=
  if String.eqb (ClientInfo.GUID other) (ClientInfo.GUID (clientInfo c))
  then (c, w)
  else
    match RadioInfo.Radios (ClientInfo.RadioInfo other) with
    | [] => (c, w)
    | _ :: _ =>
        let w := log LDebug "synced with SRS client" w in
        let isSameCoalition :=
          bool_decide (ClientInfo.Coalition (clientInfo c)
                       = ClientInfo.Coalition other)
          || IsSpectator (ClientInfo.Coalition other) in
        let isOnFrequency :=
          RadioInfo_IsOnFrequency (ClientInfo.RadioInfo (clientInfo c))
                                  (ClientInfo.RadioInfo other) in
        if isSameCoalition && isOnFrequency
        then (set_clients (<[ClientInfo.GUID other := other]> (clients c)) c, w)
        else (set_clients (delete (ClientInfo.GUID other) (clients c)) c, w)
    end.

(** The loop of [syncClients]. *)
Fixpoint syncClients_loop (c : dataClient) (others : list ClientInfo.t)
  (w : World) : dataClient * World :=
  match others with
  | [] => (c, w)
  | info :: rest =>
      let '(c, w) := syncClient c info w in
      syncClients_loop c rest w
  end.

(** [syncClients] *)
Definition syncClients (c : dataClient) (others : list ClientInfo.t)
  (w : World) : dataClient * World :=
  syncClients_loop c others (log LInfo "syncronizing clients" w).

(** [removeClient] *)
Definition removeClient (c : dataClient) (info : ClientInfo.t) : dataClient :=
  set_clients (delete (ClientInfo.GUID info) (clients c)) c.

(** [Send] *)
Definition Send (message : Message.t) (w : World) : option error * World :=
  if String.eqb (Message.Version message) ""
  then (Some (errors_New "message Version is required"), w)
  else
    match json_Marshal message with
    | inr err => (Some (fmt_Errorf "failed to marshal message to JSON" err), w)
    | inl b =>
        let b := b ++ [Byte.x0a] in
        match conn_Write b w with
        | (Some err, w) => (Some (fmt_Errorf "failed to write message" err), w)
        | (None, w) => (None, w)
        end
    end.

(** [newMessage] *)
Definition newMessage (t : MessageType) : Message.t :=
  {| Message.Version := "2.1.0.2";
     Message.Type_ := t;
     Message.Client := zero_ClientInfo;
     Message.Clients := [];
     Message.ExternalAWACSModePassword := "" |}.

(** [newMessageWithClient] *)
Definition newMessageWithClient (c : dataClient) (t : MessageType)
  : Message.t :=
  let message := newMessage t in
  {| Message.Version := Message.Version message;
     Message.Type_ := Message.Type_ message;
     Message.Client := clientInfo c;
     Message.Clients := Message.Clients message;
     Message.ExternalAWACSModePassword :=
       Message.ExternalAWACSModePassword message |}.

Definition wrap (msg : string) (r : option error * World)
  : option error * World :=
  match r with
  | (Some err, w) => (Some (fmt_Errorf msg err), w)
  | (None, w) => (None, w)
  end.

(** [sync] *)
Definition sync (c : dataClient) (w : World) : option error * World :=
  wrap "sync failed" (Send (newMessageWithClient c MessageSync) w).

(** [updateRadios] *)
Definition updateRadios (c : dataClient) (w : World) : option error * World :=
  wrap "radio update failed" (Send (newMessageWithClient c MessageRadioUpdate) w).

(** [connectExternalAWACSMode] *)
Definition connectExternalAWACSMode (c : dataClient) (w : World)
  : option error * World :=
  let message := newMessageWithClient c MessageExternalAWACSModePassword in
  let message :=
    {| Message.Version := Message.Version message;
       Message.Type_ := Message.Type_ message;
       Message.Client := Message.Client message;
       Message.Clients := Message.Clients message;
       Message.ExternalAWACSModePassword := externalAWACSModePassword c |} in
  wrap "failed to authenticate with EAM password" (Send message w).

(** [close] *)
Definition close (w : World) : option error * World :=
  wrap "error closing TCP connection to SRS" (conn_Close w).

(** [handleMessage] *)
Definition handleMessage (c : dataClient) (message : Message.t) (w : World)
  : dataClient * World :=
  match Message.Type_ message with
  | MessagePing => (c, logMessageAndIgnore message w)
  | MessageServerSettings => (c, logMessageAndIgnore message w)
  | MessageVersionMismatch => (c, logMessageAndIgnore message w)
  | MessageExternalAWACSModeDisconnect => (c, logMessageAndIgnore message w)
  | MessageSync => syncClients c (Message.Clients message) w
  | MessageUpdate => syncClient c (Message.Client message) w
  | MessageRadioUpdate => syncClient c (Message.Client message) w
  | MessageClientDisconnect => (removeClient c (Message.Client message), w)
  | MessageExternalAWACSModePassword =>
      if bool_decide (ClientInfo.Coalition (Message.Client message)
                      = ClientInfo.Coalition (clientInfo c))
      then
        let w := log LDebug "received external AWACS mode password message" w in
        match updateRadios c w with
        | (Some _, w) => (c, log LError "failed to update radios" w)
        | (None, w) => (c, w)
        end
      else (c, w)
  | MessageOther _ => (c, log LWarn "received unrecognized message" w)
  end.

(** The router handling a sequence of messages, one after the other. *)
Fixpoint handleMessages (c : dataClient) (ms : list Message.t) (w : World)
  : dataClient * World :=
  match ms with
  | [] => (c, w)
  | m :: rest =>
      let '(c, w) := handleMessage c m w in
      handleMessages c rest w
  end.

(** The [for { select {...} }] loop of [Run]. *)
Fixpoint Run_loop (c : dataClient) (inputs : list Select) (w : World)
  : Outcome * dataClient * World :=
  match inputs with
  | [] => (Blocked, c, w)
  | RecvMessage m :: rest =>
      let c := set_lastReceived (time_Now w) c in
      let '(c, w) := handleMessage c m w in
      Run_loop c rest w
  | CtxDone drained :: _ =>
      let w :=
        log LInfo "stopping SRS data client due to context cancellation" w in
      if drained then (Returned None, c, w) else (Blocked, c, w)
  | RecvError e :: _ =>
      (Returned (Some (fmt_Errorf "data client error" e)), c, w)
  end.

(** The deferred function of [Run]: it runs when [Run] returns. *)
Definition Run_deferred (r : Outcome * dataClient * World)
  : Outcome * dataClient * World :=
  match r with
  | (Returned err, c, w) =>
      match close w with
      | (Some _, w) => (Returned err, c, log LError "error closing SRS client" w)
      | (None, w) => (Returned err, c, w)
      end
  | (Blocked, c, w) => (Blocked, c, w)
  end.

(** [Run] *)
Definition Run (c : dataClient) (inputs : list Select) (w : World)
  : Outcome * dataClient * World :=
  let w := log LInfo "SRS data client starting" w in
  let w := emit (EvGo "reader") w in
  let w := emit (EvCloseChan "readyCh") w in
  let w := log LInfo "SRS data client ready" w in
  let w := log LInfo "sending initial sync message" w in
  Run_deferred
    match sync c w with
    | (Some err, w) =>
        (Returned (Some (fmt_Errorf "initial sync failed" err)), c, w)
    | (None, w) =>
        let w := log LInfo "connecting to external AWACS mode" w in
        match connectExternalAWACSMode c w with
        | (Some err, w) =>
            (Returned (Some (fmt_Errorf "external AWACS mode failed" err)), c, w)
        | (None, w) => Run_loop c inputs w
        end
    end.

End Client.

Section RunBody.

Variable json_Marshal : Message.t -> Bytes + error.

(** [Run] from the handshake on, up to its return: what the deferred
    function then closes. *)
Definition Run_body (c : dataClient) (inputs : list Select) (w : World)
  : Outcome * dataClient * World :=
  match sync json_Marshal c w with
  | (Some err, w) =>
      (Returned (Some (fmt_Errorf "initial sync failed" err)), c, w)
  | (None, w) =>
      let w := log LInfo "connecting to external AWACS mode" w in
      match connectExternalAWACSMode json_Marshal c w with
      | (Some err, w) =>
          (Returned (Some (fmt_Errorf "external AWACS mode failed" err)), c, w)
      | (None, w) => Run_loop json_Marshal c inputs w
      end
  end.

End RunBody.

(** The directory does not contain the client itself. *)
Definition no_self (c : dataClient) : Prop :=
  clients c !! ClientInfo.GUID (clientInfo c) = None.

(** [c] still is the client [c0] was, and does not contain itself. *)
Definition keeps (c0 c : dataClient) : Prop :=
  clientInfo c = clientInfo c0 /\ no_self c.

(** The world [Run] is in when it starts the handshake. *)
Definition Run_prelude (w : World) : World :=
  log LInfo "sending initial sync message"
    (log LInfo "SRS data client ready"
       (emit (EvCloseChan "readyCh")
          (emit (EvGo "reader") (log LInfo "SRS data client starting" w)))).

(** The loop of [IsOnFrequency] over the entries of the directory. *)
Fixpoint IsOnFrequency_loop (c : dataClient) (name : string)
  (entries : list ClientInfo.t) : bool :=
  match entries with
  | [] => false
  | client :: rest =>
      if String.eqb (ClientInfo.Name client) name
      then
        if RadioInfo_IsOnFrequency (ClientInfo.RadioInfo (clientInfo c))
                                   (ClientInfo.RadioInfo client)
        then true
        else IsOnFrequency_loop c name rest
      else IsOnFrequency_loop c name rest
  end.

(** [IsOnFrequency] *)
Definition IsOnFrequency (c : dataClient) (name : string) : bool :=
  IsOnFrequency_loop c name (map_to_list (clients c)).*2.

(** The loop of [ClientsOnFrequency], from [count]. *)
Fixpoint ClientsOnFrequency_loop (c : dataClient) (count : Z)
  (entries : list ClientInfo.t) : Z :=
  match entries with
  | [] => count
  | client :: rest =>
      if RadioInfo_IsOnFrequency (ClientInfo.RadioInfo (clientInfo c))
                                 (ClientInfo.RadioInfo client)
      then ClientsOnFrequency_loop c (count + 1) rest
      else ClientsOnFrequency_loop c count rest
  end.

(** [ClientsOnFrequency] *)
Definition ClientsOnFrequency (c : dataClient) : Z :=
  ClientsOnFrequency_loop c 0 (map_to_list (clients c)).*2.

(** What one turn of the reader goroutine of [Run] meets: the context is
    canceled, or [reader.ReadBytes] returns. *)
Inductive ReaderStep : Type :=
| Canceled
    (* [ctx.Err() != nil] *)
| ReadLine (line : Bytes)
    (* a line and a nil error *)
| ReadEOF (partial : Bytes)
    (* [io.EOF] *)
| ReadFailed (partial : Bytes) (err : error).
    (* any other error *)

Section Reader.

(** [json.Unmarshal] into a message: the message, or an error. *)
Variable json_Unmarshal : Bytes -> Message.t + error.

(** The reader goroutine of [Run]: the lines it logs, and what it offers on
    [messageChan] and [errorChan], in order.  When the steps run out the
    reader is waiting in [ReadBytes]. *)
Fixpoint reader (steps : list ReaderStep) : list Event * list Select :=
  match steps with
  | [] => ([], [])
  | Canceled :: _ =>
      ([EvLog LInfo "stopping SRS data client due to context cancellation"],
       [])
  | ReadLine line :: rest =>
      match json_Unmarshal line with
      | inr _ =>
          let '(evs, out) := reader rest in
          (EvLog LWarn "failed to unmarshal message" :: evs, out)
      | inl message =>
          let '(evs, out) := reader rest in
          (evs, RecvMessage message :: out)
      end
  | ReadEOF _ :: rest =>
      let '(evs, out) := reader rest in
      (EvLog LTrace "EOF received from SRS server" :: evs, out)
  | ReadFailed _ err :: _ =>
      ([EvLog LError "error reading from SRS server"], [RecvError err])
  end.

(** What the reader offers for one step that does not stop it. *)
Definition delivered (s : ReaderStep) : option Select :=
  match s with
  | ReadLine line =>
      match json_Unmarshal line with
      | inl message => Some (RecvMessage message)
      | inr _ => None
      end
  | _ => None
  end.

End Reader.

(** An entry of the directory as [syncClient] stores it: under its own
    GUID, not the client's, with radios, of a compatible coalition and on
    frequency with the client. *)
Definition entry_ok (c : dataClient) (g : string) (e : ClientInfo.t) : Prop :=
  ClientInfo.GUID e = g
  /\ g <> ClientInfo.GUID (clientInfo c)
  /\ RadioInfo.Radios (ClientInfo.RadioInfo e) <> []
  /\ (ClientInfo.Coalition (clientInfo c) = ClientInfo.Coalition e
      \/ IsSpectator (ClientInfo.Coalition e) = true)
  /\ RadioInfo_IsOnFrequency (ClientInfo.RadioInfo (clientInfo c))
                             (ClientInfo.RadioInfo e) = true.

Definition directory_ok (c : dataClient) : Prop :=
  forall g e, clients c !! g = Some e -> entry_ok c g e.

(** The GUIDs a message names. *)
Definition named (m : Message.t) (g : string) : Prop :=
  g = ClientInfo.GUID (Message.Client m)
  \/ exists o, In o (Message.Clients m) /\ ClientInfo.GUID o = g.

(** The steps before the reader stops: up to the first cancellation or
    failed read. *)
Fixpoint before_stop (steps : list ReaderStep) : list ReaderStep :=
  match steps with
  | [] => []
  | Canceled :: _ => []
  | ReadFailed _ _ :: _ => []
  | s :: rest => s :: before_stop rest
  end.

(** The error of the first failed read, when the reader stops on one. *)
Fixpoint stop_error (steps : list ReaderStep) : option error :=
  match steps with
  | [] => None
  | Canceled :: _ => None
  | ReadFailed _ err :: _ => Some err
  | _ :: rest => stop_error rest
  end.

Definition is_message (s : Select) : bool :=
  match s with RecvMessage _ => true | _ => false end.

(** The test of [ClientsOnFrequency] on one entry. *)
Definition on_frequency_with (c : dataClient) (e : ClientInfo.t) : bool :=
  RadioInfo_IsOnFrequency (ClientInfo.RadioInfo (clientInfo c))
                          (ClientInfo.RadioInfo e).

(** The client is still who it was, and every entry is as [syncClient]
    stores entries. *)
Definition well_kept (c0 c : dataClient) : Prop :=
  clientInfo c = clientInfo c0 /\ directory_ok c.

End data.

(** ** Package [audio]: the transmit path of the SRS audio client *)

Module audio.
Import rt types.

#[global] Instance Radio_eq_dec : EqDecision Radio.t.
Proof. solve_decision. Defined.

#[global] Instance Radio_countable : Countable Radio.t :=
  inj_countable'
    (fun r => (Radio.Frequency r, Radio.Modulation r, Radio.IsEncrypted r,
               Radio.EncryptionKey r, Radio.GuardFrequency r))
    (fun '(f, m, e, k, g) => Radio.mk f m e k g)
    (fun r => match r with Radio.mk _ _ _ _ _ => eq_refl end).

Definition Millisecond : Z := 1000000.

(** Modelled from the spec: the [receiver] struct (the receiver state of
    one configured radio): origin of the current transmission, number of
    the last accepted packet, and the deadline, which is the arrival time
    of the last packet plus frame length and grace. *)
Record receiver : Type := mkReceiver {
  origin : GUID;
  packetNumber_ : Z;
  deadline : Z
}.

(** Modelled from the spec: [isReceivingTransmission] is true iff
    [now < deadline]. *)
Definition isReceivingTransmission (r : receiver) (w : World) : bool :=
  time_Now w <? deadline r.

(** [audioClient].  [receivers] maps each radio to a pointer; the struct
    behind the pointer is written by the receiving goroutines while the
    transmitter runs, so the pointer is modelled by what it points to at
    each instant.  The UDP connection lives in the [World]; the [busy]
    mutex shows as [EvLock] and [EvUnlock] events (the transmitter is the
    only goroutine that takes it). *)
Record audioClient : Type := mkAudioClient {
  guid : GUID;
  radios : list Radio.t;
  receivers : gmap Radio.t (Z -> receiver);
  packetNumber : Z;
  mute : bool;
  lastPing : Z
}.

Definition set_mute (b : bool) (c : audioClient) : audioClient :=
  mkAudioClient (guid c) (radios c) (receivers c) (packetNumber c) b
                (lastPing c).

(** The receiver structs as they are at the present instant, in the order
    the [range] loop visits them. *)
Definition receivers_now (c : audioClient) (w : World) : list receiver :=
  (fun kv : Radio.t * (Z -> receiver) => kv.2 (clock w))
    <$> map_to_list (receivers c).

(** A loop that may go round forever is run with fuel: it is [Done], or
    still [Spinning] when the fuel is used up. *)
Inductive Progress : Type :=
| Done (w : World)
| Spinning (w : World).

Definition world_of (p : Progress) : World :=
  match p with Done w | Spinning w => w end.

Section Transmit.

(** [voice.VoicePacket] and its [Encode] method (package [voice]). *)
Variable VoicePacket : Type.
Variable Encode : VoicePacket -> Bytes.

(** [frameLength], the duration of one audio frame (a constant of the
    package). *)
Variable frameLength : Z.

(** What the select statement of [transmit] receives, in order. *)
Inductive Select : Type :=
| RecvPackets (packets : list VoicePacket)
    (* [case packets := <-packetCh] *)
| CtxDone.
    (* [case <-ctx.Done()] *)

(** The [range c.receivers] loop of [waitForClearChannel], from
    [isReceiving := false] and [deadline := time.Now()].  The scan is taken
    at one instant: one reading of the clock and of the receivers. *)
Definition scan_step (w : World) (acc : bool * Z) (r : receiver) : bool * Z :=
  let '(isReceiving, deadline_) := acc in
  if isReceivingTransmission r w
  then (true, if deadline_ <? deadline r then deadline r else deadline_)
  else (isReceiving, deadline_).

Definition scan (rs : list receiver) (w : World) : bool * Z :=
  foldl (scan_step w) (false, time_Now w) rs.

(** [waitForClearChannel] *)
Fixpoint waitForClearChannel (fuel : nat) (c : audioClient) (w : World)
  : Progress :=
  match fuel with
  | O => Spinning w
  | S fuel =>
      let '(isReceiving, deadline_) := scan (receivers_now c w) w in
      if isReceiving
      then
        let delay := time_Until deadline_ w + 250 * Millisecond in
        let w :=
          log LInfo
            "delaying outgoing transmission to avoid interrupting incoming transmission"
            w in
        let w := time_Sleep delay w in
        waitForClearChannel fuel c w
      else Done w
  end.

(** The body of the [range packets] loop of [writePackets] for packet [i]. *)
Definition writePacket (startTime : Z) (i : Z) (vp : VoicePacket) (w : World)
  : World :=
  let b := Encode vp in
  let w := elapse w in
  let delay :=
    time_Until (startTime + i * frameLength + Z.quot (- frameLength) 2) w in
  let w := time_Sleep delay w in
  match conn_Write b w with
  | (Some _, w) => log LError "failed to transmit voice packet" w
  | (None, w) => w
  end.

Fixpoint writePackets_loop (startTime : Z) (i : Z) (packets : list VoicePacket)
  (w : World) : World :=
  match packets with
  | [] => w
  | vp :: rest =>
      writePackets_loop startTime (i + 1) rest (writePacket startTime i vp w)
  end.

(** [writePackets] *)
Definition writePackets (packets : list VoicePacket) (w : World) : World :=
  let startTime := time_Now w in
  writePackets_loop startTime 0 packets w.

(** [tx]; the deferred [Unlock] runs when [tx] returns. *)
Definition tx (fuel : nat) (c : audioClient) (packets : list VoicePacket)
  (w : World) : Progress :=
  let w := emit EvLock w in
  match waitForClearChannel fuel c w with
  | Spinning w => Spinning w
  | Done w =>
      let w := if negb (mute c) then writePackets packets w else w in
      Done (emit EvUnlock w)
  end.

(** [transmit]: [Done] when the loop returns; [Spinning] when it does not
    (a clear-channel wait still going round, or nothing left to receive). *)
Fixpoint transmit (fuel : nat) (c : audioClient) (inputs : list Select)
  (w : World) : Progress :=
  match inputs with
  | [] => Spinning w
  | RecvPackets packets :: rest =>
      match tx fuel c packets w with
      | Spinning w => Spinning w
      | Done w =>
          let '(r, w) := rand_IntN 500 w in
          let pause := (500 + r) * Millisecond in
          let w := time_Sleep pause w in
          transmit fuel c rest w
      end
  | CtxDone :: _ =>
      Done (log LInfo
              "stopping SRS audio transmitter due to context cancellation" w)
  end.

(** [close] *)
Definition close (w : World) : option error * World :=
  match conn_Close w with
  | (Some err, w) =>
      (Some (fmt_Errorf "error closing UDP connection to SRS" err), w)
  | (None, w) => (None, w)
  end.

Definition ctx_canceled (inputs : list Select) : bool :=
  existsb (fun s => match s with CtxDone => true | _ => false end) inputs.

(** How a call of [Run] ends: it returns, or it waits forever. *)
Inductive Outcome : Type :=
| Returned (err : option error)
| Blocked.

(** [Run].  It starts the seven goroutines, waits for the context to be
    canceled and returns nil; the deferred function then closes the
    connection.  Of the goroutines only the transmitter is part of the
    sources at hand: it is run here on what its select statement receives;
    the others show through [receivers] only.  The trace therefore holds
    the events of the transmitter alone: the pings that [sendPings] writes
    on the same connection are not in it. *)
Definition Run (fuel : nat) (c : audioClient) (inputs : list Select)
  (w : World) : Outcome * World :=
  let w := emit (EvGo "sendPings") w in
  let w := emit (EvGo "receivePings") w in
  let w := emit (EvGo "receiveVoice") w in
  let w := emit (EvGo "decodeVoice") w in
  let w := emit (EvGo "encodeVoice") w in
  let w := emit (EvGo "transmit") w in
  let w := emit (EvGo "receiveUDP") w in
  let w := world_of (transmit fuel c inputs w) in
  if ctx_canceled inputs
  then
    match close w with
    | (Some _, w) => (Returned None, log LError "error closing SRS client" w)
    | (None, w) => (Returned None, w)
    end
  else (Blocked, w).

End Transmit.

Arguments RecvPackets {VoicePacket} packets.
Arguments CtxDone {VoicePacket}.

(** The latest deadline among the receivers that are receiving (the present
    time when there is none). *)
Definition latest_deadline (rs : list receiver) (w : World) : Z :=
  foldr Z.max (time_Now w)
        (deadline <$> List.filter (fun r => isReceivingTransmission r w) rs).

(** Some receiver is receiving. *)
Definition any_receiving (rs : list receiver) (w : World) : bool :=
  existsb (fun r => isReceivingTransmission r w) rs.


(** The instant packet [i] of a batch started at [startTime] is paced to. *)
Definition nominal_time (frameLength startTime : Z) (i : Z) : Z :=
  startTime + i * frameLength - Z.quot frameLength 2.

(** The clear-channel property at a write: when a packet is written at [t],
    no receiver has its deadline after [t]. *)
Definition clear_at (c : audioClient) (t : Z) : Prop :=
  forall k cell, receivers c !! k = Some cell -> deadline (cell t) <= t.

(** No receiver ever has a deadline after [horizon]: the incoming
    transmissions end. *)
Definition bounded (c : audioClient) (horizon : Z) : Prop :=
  forall k cell, receivers c !! k = Some cell ->
  forall t, deadline (cell t) <= horizon.

End audio.

(** ** Concrete clients, peers and worlds

    The scenarios of the specification (section 8): the client is blue on
    251.0 MHz AM; Viper is a blue peer on 251.0 MHz. *)

Module scenario.
Import rt types.

Definition AM : N := 0%N.

Definition radio251 : Radio.t := Radio.mk 251000000 AM false 0 false.
Definition radio243 : Radio.t := Radio.mk 243000000 AM false 0 false.

Definition config : ClientConfiguration.t :=
  ClientConfiguration.mk "srs.example:5002" "SkyEye" "secret" Blue
                         [radio251] false.

Definition self : data.dataClient := data.NewClient "skyeye" config.

Definition peer (name : string) (g : GUID) (co : Coalition)
  (rs : list Radio.t) : ClientInfo.t :=
  ClientInfo.mk name g co (RadioInfo.mk 7 "F-16C" rs NewIFF NewAmbient) None.

Definition viper : ClientInfo.t := peer "Viper" "A" Blue [radio251].
Definition hostile : ClientInfo.t := peer "Flanker" "B" Red [radio251].
Definition viper_off : ClientInfo.t := peer "Viper" "A" Blue [].

Definition message (t : MessageType) (client : ClientInfo.t)
  (others : list ClientInfo.t) : Message.t :=
  Message.mk "2.1.0.2" t client others "".

(** A quiet world at time 0: no lapse, every write succeeds. *)
Definition w0 : World := mkWorld 0 [] [] None [] [].

(** The same world, where the first write fails. *)
Definition w_fail : World :=
  mkWorld 0 [] [Some (errors_New "write: connection refused")] None [] [].

(** A stand-in for [json.Marshal]: the version string as bytes. *)
Definition marshal (m : Message.t) : Bytes + error :=
  inl (list_byte_of_string (Message.Version m)).

(** A stand-in for [json.Marshal] that fails. *)
Definition marshal_fails (m : Message.t) : Bytes + error :=
  inr (errors_New "json: unsupported value").

(** Voice packets stand for their own encoding. *)
Definition Encode (vp : Bytes) : Bytes := vp.

Definition frame : Z := 40 * audio.Millisecond.

Definition packet1 : Bytes := [Byte.x01].
Definition packet2 : Bytes := [Byte.x02].

Definition audio_client (cell : Z -> audio.receiver) (muted : bool)
  : audio.audioClient :=
  audio.mkAudioClient "skyeye" [radio251] {[ radio251 := cell ]} 1 muted 0.

Definition idle : Z -> audio.receiver :=
  fun _ => audio.mkReceiver "" 0 0.

(** Scenario 6: a reception whose deadline is 300 ms from now. *)
Definition receiving : Z -> audio.receiver :=
  fun _ => audio.mkReceiver "A" 1 (300 * audio.Millisecond).


(** A stand-in for [json.Unmarshal]: an empty line does not parse; any
    other line is an Update for Viper. *)
Definition unmarshal (line : Bytes) : Message.t + error :=
  match line with
  | [] => inr (errors_New "unexpected end of JSON input")
  | _ :: _ => inl (message MessageUpdate viper [])
  end.

(** A world where encoding the first packet takes 5 ms. *)
Definition w_slow_encode : World := mkWorld 0 [5000000%N] [] None [] [].

(** A world where the first write takes 100 ms to return. *)
Definition w_slow_write : World :=
  mkWorld 0 [0%N; 100000000%N] [] None [] [].

(** A client that listens on three radios: a reception on 251 MHz whose
    deadline is 300 ms from now, another on 243 MHz whose deadline is
    100 ms from now, and nothing on 305 MHz. *)
Definition radio305 : Radio.t := Radio.mk 305000000 AM false 0 false.

Definition receiving_short : Z -> audio.receiver :=
  fun _ => audio.mkReceiver "B" 4 (100 * audio.Millisecond).

Definition audio_client3 (muted : bool) : audio.audioClient :=
  audio.mkAudioClient "skyeye" [radio251; radio243; radio305]
    (<[ radio305 := idle ]>
       (<[ radio243 := receiving_short ]> {[ radio251 := receiving ]}))
    1 muted 0.

End scenario.

(** * Properties of the world: traces and the clock *)

Create HintDb world.

Section WorldFacts.
Import rt.

Lemma extends_refl w : extends w w.
Proof. exists []. by rewrite app_nil_r. Qed.

Lemma extends_trans w1 w2 w3 : extends w1 w2 -> extends w2 w3 -> extends w1 w3.
Proof.
  intros [e1 H1] [e2 H2]. exists (e1 ++ e2). by rewrite H2, H1, app_assoc.
Qed.

Lemma trace_elapse w : trace (elapse w) = trace w.
Proof. unfold elapse. by destruct (lapses w). Qed.

Lemma extends_emit e w : extends w (emit e w).
Proof. by exists [e]. Qed.

Lemma conn_Write_trace b w :
  trace (conn_Write b w).2
  = trace w ++ [EvWrite (clock w) b (next_write_err w)].
Proof.
  unfold conn_Write, next_write_err.
  destruct (write_errs w); simpl; by rewrite trace_elapse.
Qed.

Lemma conn_Write_result b w : (conn_Write b w).1 = next_write_err w.
Proof. unfold conn_Write, next_write_err. by destruct (write_errs w). Qed.

Lemma new_events_app w w' evs :
  trace w' = trace w ++ evs -> new_events w w' = evs.
Proof. unfold new_events. intros ->. by rewrite drop_app_length. Qed.

Lemma extends_new_events w w' :
  extends w w' -> trace w' = trace w ++ new_events w w'.
Proof. intros [evs H]. by rewrite (new_events_app _ _ _ H). Qed.

Lemma new_events_trans w1 w2 w3 :
  extends w1 w2 -> extends w2 w3 ->
  new_events w1 w3 = new_events w1 w2 ++ new_events w2 w3.
Proof.
  intros H12 H23. apply new_events_app.
  rewrite (extends_new_events _ _ H23), (extends_new_events _ _ H12).
  by rewrite app_assoc.
Qed.

Lemma elapse_clock w : clock w <= clock (elapse w).
Proof. unfold elapse. destruct (lapses w); simpl; lia. Qed.

Lemma elapse_quiet w : lapses w = [] -> elapse w = w.
Proof. unfold elapse. by intros ->. Qed.

Lemma elapse_write_errs w : write_errs (elapse w) = write_errs w.
Proof. unfold elapse. by destruct (lapses w). Qed.

Lemma next_write_err_elapse w : next_write_err (elapse w) = next_write_err w.
Proof. unfold next_write_err. by rewrite elapse_write_errs. Qed.

Lemma time_Sleep_trace d w :
  trace (time_Sleep d w) = trace w ++ [EvSleep (clock w) d].
Proof.
  unfold time_Sleep. destruct (d <=? 0); [done|]. by rewrite trace_elapse.
Qed.

Lemma time_Sleep_nonpos d w :
  d <= 0 -> time_Sleep d w = emit (EvSleep (clock w) d) w.
Proof. unfold time_Sleep. intros Hd. by apply Z.leb_le in Hd as ->. Qed.

Lemma time_Sleep_clock d w :
  clock w <= clock (time_Sleep d w) /\ clock w + d <= clock (time_Sleep d w).
Proof.
  unfold time_Sleep. destruct (d <=? 0) eqn:Hd.
  - apply Z.leb_le in Hd. simpl. lia.
  - apply Z.leb_gt in Hd.
    pose proof (elapse_clock (advance d (emit (EvSleep (clock w) d) w))) as H.
    simpl in H. lia.
Qed.

Lemma time_Sleep_quiet d w :
  lapses w = [] ->
  clock (time_Sleep d w) = clock w + Z.max 0 d
  /\ lapses (time_Sleep d w) = [].
Proof.
  unfold time_Sleep. intros Hq. destruct (d <=? 0) eqn:Hd.
  - apply Z.leb_le in Hd. simpl. split; [lia|done].
  - apply Z.leb_gt in Hd. rewrite elapse_quiet; simpl; [|done]. split; [lia|done].
Qed.

Lemma time_Sleep_write_errs d w :
  write_errs (time_Sleep d w) = write_errs w.
Proof.
  unfold time_Sleep. destruct (d <=? 0); [done|]. by rewrite elapse_write_errs.
Qed.

Lemma conn_Write_clock b w : clock w <= clock (conn_Write b w).2.
Proof.
  unfold conn_Write. destruct (write_errs w); simpl;
    match goal with |- _ <= clock (elapse ?x) =>
      pose proof (elapse_clock x) as H; simpl in H; lia end.
Qed.

Lemma conn_Write_quiet b w :
  lapses w = [] ->
  clock (conn_Write b w).2 = clock w /\ lapses (conn_Write b w).2 = [].
Proof.
  unfold conn_Write. intros Hq.
  destruct (write_errs w); simpl; rewrite elapse_quiet; simpl; done.
Qed.

Lemma clock_log lvl msg w : clock (log lvl msg w) = clock w.
Proof. done. Qed.

Lemma extends_log lvl msg w : extends w (log lvl msg w).
Proof. apply extends_emit. Qed.

Lemma time_Sleep_extends d w : extends w (time_Sleep d w).
Proof. eexists. apply time_Sleep_trace. Qed.

Lemma writes_new_events w w' :
  extends w w' ->
  writes w' = writes w ++ List.filter is_write (new_events w w').
Proof.
  intros H. unfold writes.
  by rewrite (extends_new_events _ _ H), List.filter_app.
Qed.

End WorldFacts.

#[export] Hint Resolve extends_refl extends_emit extends_log
  time_Sleep_extends : world.

(** * Properties of the data client *)

Section DataClientFacts.
Import rt types data.

Variable json_Marshal : Message.t -> Bytes + error.

Lemma syncClient_clientInfo c other w :
  clientInfo (syncClient c other w).1 = clientInfo c.
Proof.
  unfold syncClient.
  destruct (String.eqb _ _); [done|].
  destruct (RadioInfo.Radios _); [done|].
  by destruct (_ && _).
Qed.

Lemma syncClient_no_self c other w :
  no_self c -> no_self (syncClient c other w).1.
Proof.
  unfold no_self. intros Hc.
  rewrite syncClient_clientInfo. unfold syncClient.
  destruct (String.eqb _ _) eqn:Heq; [done|].
  apply String.eqb_neq in Heq.
  destruct (RadioInfo.Radios _); [done|].
  destruct (_ && _); simpl.
  - by rewrite lookup_insert_ne.
  - by rewrite lookup_delete_ne.
Qed.

Lemma syncClients_loop_inv (P : dataClient -> Prop) :
  (forall c other w, P c -> P (syncClient c other w).1) ->
  forall others c w, P c -> P (syncClients_loop c others w).1.
Proof.
  intros Hstep others.
  induction others as [|info rest IH]; intros c w Hc; simpl; [done|].
  destruct (syncClient c info w) as [c1 w1] eqn:E.
  apply IH. replace c1 with (syncClient c info w).1 by (by rewrite E).
  by apply Hstep.
Qed.

Lemma removeClient_clientInfo c info :
  clientInfo (removeClient c info) = clientInfo c.
Proof. done. Qed.

Lemma removeClient_no_self c info : no_self c -> no_self (removeClient c info).
Proof.
  unfold no_self, removeClient. simpl. intros Hc.
  destruct (decide (ClientInfo.GUID info = ClientInfo.GUID (clientInfo c)))
    as [->|Hne].
  - by rewrite lookup_delete_eq.
  - by rewrite lookup_delete_ne.
Qed.

Lemma syncClient_keeps c0 c other w :
  keeps c0 c -> keeps c0 (syncClient c other w).1.
Proof.
  intros [Hi Hn]. split.
  - by rewrite syncClient_clientInfo.
  - by apply syncClient_no_self.
Qed.

Lemma handleMessage_keeps c0 c m w :
  keeps c0 c -> keeps c0 (handleMessage json_Marshal c m w).1.
Proof.
  intros Hk. unfold handleMessage.
  destruct (Message.Type_ m); simpl; try done.
  - unfold syncClients.
    apply (syncClients_loop_inv (keeps c0)); [|done].
    intros; by apply syncClient_keeps.
  - by apply syncClient_keeps.
  - by apply syncClient_keeps.
  - destruct Hk as [Hi Hn]. split; [done|]. by apply removeClient_no_self.
  - destruct (bool_decide _); [|done].
    by destruct (updateRadios _ _ _) as [[e|] w1].
Qed.

Lemma handleMessages_keeps ms : forall c0 c w,
  keeps c0 c -> keeps c0 (handleMessages json_Marshal c ms w).1.
Proof.
  induction ms as [|m rest IH]; intros c0 c w Hk; simpl; [done|].
  destruct (handleMessage json_Marshal c m w) as [c1 w1] eqn:E.
  apply IH.
  replace c1 with (handleMessage json_Marshal c m w).1 by (by rewrite E).
  by apply handleMessage_keeps.
Qed.

Lemma Run_loop_keeps inputs : forall c0 c w,
  keeps c0 c -> keeps c0 (Run_loop json_Marshal c inputs w).1.2.
Proof.
  induction inputs as [|i rest IH]; intros c0 c w Hk; simpl; [done|].
  destruct i as [m|drained|e]; [|by destruct drained|done].
  pose proof (handleMessage_keeps c0 (set_lastReceived (time_Now w) c) m w Hk)
    as H1.
  destruct (handleMessage _ _ m w) as [c1 w1]. by apply IH.
Qed.

Lemma Run_keeps c0 c inputs w :
  keeps c0 c -> keeps c0 (Run json_Marshal c inputs w).1.2.
Proof.
  intros Hk. unfold Run.
  assert (forall r, keeps c0 r.1.2 -> keeps c0 (Run_deferred r).1.2) as Hd.
  { intros [[[err|] c1] w1]; simpl; [|done].
    by destruct (close w1) as [[e|] w2]. }
  apply Hd.
  destruct (sync _ _ _) as [[e|] w1]; [done|].
  destruct (connectExternalAWACSMode _ _ _) as [[e|] w2]; [done|].
  by apply Run_loop_keeps.
Qed.

Lemma NewClient_keeps guid config :
  keeps (NewClient guid config) (NewClient guid config).
Proof. split; [done|]. unfold no_self. simpl. apply lookup_empty. Qed.

(** C1. The single-peer rule of [syncClient]: a ClientInfo whose GUID is
    the client's own, or whose radios sequence is empty, is ignored;
    otherwise, when the peer is in the client's coalition or a spectator,
    and its RadioInfo is on frequency with the client's, the directory
    entry of its GUID is set to that ClientInfo; in every other case the
    entry of its GUID is deleted.  Nothing but the directory changes. *)
Theorem syncClient_single_peer_rule (c : dataClient) (other : ClientInfo.t)
  (w : World) :
  let self := clientInfo c in
  let g := ClientInfo.GUID other in
  let sameCoalition :=
    ClientInfo.Coalition other = ClientInfo.Coalition self
    \/ IsSpectator (ClientInfo.Coalition other) = true in
  let onFreq :=
    RadioInfo_IsOnFrequency (ClientInfo.RadioInfo self)
                            (ClientInfo.RadioInfo other) = true in
  let c' := (syncClient c other w).1 in
  (g = ClientInfo.GUID self
   \/ RadioInfo.Radios (ClientInfo.RadioInfo other) = [] ->
   syncClient c other w = (c, w))
  /\ (g <> ClientInfo.GUID self ->
      RadioInfo.Radios (ClientInfo.RadioInfo other) <> [] ->
      sameCoalition -> onFreq ->
      clients c' = <[g := other]> (clients c))
  /\ (g <> ClientInfo.GUID self ->
      RadioInfo.Radios (ClientInfo.RadioInfo other) <> [] ->
      ~ (sameCoalition /\ onFreq) ->
      clients c' = delete g (clients c))
  /\ clientInfo c' = clientInfo c
  /\ externalAWACSModePassword c' = externalAWACSModePassword c
  /\ lastReceived c' = lastReceived c.
Proof.
  cbv zeta. unfold syncClient.
  destruct (String.eqb _ _) eqn:Heq.
  { apply String.eqb_eq in Heq. repeat split; done. }
  apply String.eqb_neq in Heq.
  destruct (RadioInfo.Radios (ClientInfo.RadioInfo other)) as [|r rs] eqn:Hr.
  { repeat split; done. }
  assert (Hsc :
    bool_decide (ClientInfo.Coalition (clientInfo c)
                 = ClientInfo.Coalition other)
    || IsSpectator (ClientInfo.Coalition other) = true
    <-> (ClientInfo.Coalition other = ClientInfo.Coalition (clientInfo c)
         \/ IsSpectator (ClientInfo.Coalition other) = true)).
  { rewrite orb_true_iff, bool_decide_eq_true. intuition congruence. }
  destruct (bool_decide _ || _) eqn:Hco;
    destruct (RadioInfo_IsOnFrequency _ _) eqn:Hfr; simpl.
  - repeat split; try done.
    + by intros [?|?].
    + intros _ _ Hn. exfalso. apply Hn. split; [by apply Hsc|done].
  - repeat split; try done. by intros [?|?].
  - repeat split; try done.
    + by intros [?|?].
    + intros _ _ Hs _. apply Hsc in Hs. done.
  - repeat split; try done. by intros [?|?].
Qed.

(** C2. Whatever messages the router handles, of whatever types and
    contents and in whatever order, starting from the client that
    [NewClient] builds, the directory has no entry under the client's own
    GUID: after any sequence of messages, and at the end of any [Run]. *)
Theorem directory_never_contains_self (guid : GUID)
  (config : ClientConfiguration.t) (ms : list Message.t)
  (inputs : list Select) (w : World) :
  clients (handleMessages json_Marshal (NewClient guid config) ms w).1
    !! guid = None
  /\ clients (Run json_Marshal (NewClient guid config) inputs w).1.2
       !! guid = None.
Proof.
  split.
  - destruct (handleMessages_keeps ms _ _ w (NewClient_keeps guid config))
      as [Hi Hn].
    unfold no_self in Hn. by rewrite Hi in Hn.
  - destruct (Run_keeps _ _ inputs w (NewClient_keeps guid config))
      as [Hi Hn].
    unfold no_self in Hn. by rewrite Hi in Hn.
Qed.

Lemma syncClients_loop_app l1 : forall l2 c w,
  syncClients_loop c (l1 ++ l2) w
  = syncClients_loop (syncClients_loop c l1 w).1 l2 (syncClients_loop c l1 w).2.
Proof.
  induction l1 as [|info rest IH]; intros l2 c w; simpl; [done|].
  destruct (syncClient c info w) as [c1 w1]. apply IH.
Qed.

Lemma syncClient_empty_radios c other w :
  RadioInfo.Radios (ClientInfo.RadioInfo other) = [] ->
  syncClient c other w = (c, w).
Proof.
  intros Hr. unfold syncClient. rewrite Hr. by destruct (String.eqb _ _).
Qed.

(** C10. An Update, a RadioUpdate or a Sync entry whose radios sequence is
    empty leaves the directory as it is, for every GUID: an entry already
    stored under that GUID stays. *)
Theorem empty_radios_keep_stale_entry (c : dataClient) (other old : ClientInfo.t)
  (w : World) :
  RadioInfo.Radios (ClientInfo.RadioInfo other) = [] ->
  clients c !! ClientInfo.GUID other = Some old ->
  (forall m,
     Message.Client m = other ->
     Message.Type_ m = MessageUpdate \/ Message.Type_ m = MessageRadioUpdate ->
     let c' := (handleMessage json_Marshal c m w).1 in
     (forall g, clients c' !! g = clients c !! g)
     /\ clients c' !! ClientInfo.GUID other = Some old)
  /\ (let c' := (syncClient c other w).1 in
      (forall g, clients c' !! g = clients c !! g)
      /\ clients c' !! ClientInfo.GUID other = Some old)
  /\ (forall before after,
        syncClients c (before ++ other :: after) w
        = syncClients c (before ++ after) w).
Proof.
  intros Hr Hold. split; [|split].
  - intros m Hm Hty. cbv zeta.
    assert (handleMessage json_Marshal c m w = (c, w)) as ->; [|done].
    unfold handleMessage.
    destruct Hty as [-> | ->]; rewrite Hm; by apply syncClient_empty_radios.
  - by rewrite syncClient_empty_radios.
  - intros before after. unfold syncClients.
    rewrite !syncClients_loop_app. simpl.
    by rewrite syncClient_empty_radios.
Qed.

(** C6. [Send] on a message without version returns an error and leaves
    the world as it is (nothing is written).  Otherwise it makes one
    [Write] call, with exactly the JSON serialization followed by one
    newline, when there is a serialization, and returns an error iff
    serializing or that write fails (when serializing fails nothing is
    written). *)
Theorem Send_writes_json_line (message : Message.t) (w : World) :
  (Message.Version message = "" ->
   is_Some (Send json_Marshal message w).1
   /\ (Send json_Marshal message w).2 = w)
  /\ (Message.Version message <> "" ->
      match json_Marshal message with
      | inl b =>
          trace (Send json_Marshal message w).2
          = trace w ++ [EvWrite (clock w) (b ++ [Byte.x0a]) (next_write_err w)]
          /\ (is_Some (Send json_Marshal message w).1
              <-> is_Some (next_write_err w))
      | inr _ =>
          is_Some (Send json_Marshal message w).1
          /\ (Send json_Marshal message w).2 = w
      end).
Proof.
  unfold Send. split.
  - intros ->. simpl. eauto.
  - intros Hv. apply String.eqb_neq in Hv. rewrite Hv.
    destruct (json_Marshal message) as [b|e]; [|simpl; eauto].
    pose proof (conn_Write_trace (b ++ [Byte.x0a]) w) as Ht.
    pose proof (conn_Write_result (b ++ [Byte.x0a]) w) as Hres.
    destruct (conn_Write (b ++ [Byte.x0a]) w) as [[e|] w1]; simpl in *;
      rewrite <- Hres in *; (split; [done|]).
    + split; eauto.
    + split; intros [? ?]; done.
Qed.

Lemma Send_ok message w w' :
  Send json_Marshal message w = (None, w') ->
  exists b, json_Marshal message = inl b
    /\ trace w' = trace w ++ [EvWrite (clock w) (b ++ [Byte.x0a]) None].
Proof.
  unfold Send. destruct (String.eqb _ _); [done|].
  destruct (json_Marshal message) as [b|e]; [|done].
  pose proof (conn_Write_trace (b ++ [Byte.x0a]) w) as Ht.
  pose proof (conn_Write_result (b ++ [Byte.x0a]) w) as Hres.
  destruct (conn_Write (b ++ [Byte.x0a]) w) as [[e|] w1]; [done|].
  intros [= <-]. simpl in *. exists b. by rewrite <- Hres in Ht.
Qed.

Lemma Send_extends message w : extends w (Send json_Marshal message w).2.
Proof.
  unfold Send. destruct (String.eqb _ _); [apply extends_refl|].
  destruct (json_Marshal message) as [b|e]; [|apply extends_refl].
  pose proof (conn_Write_trace (b ++ [Byte.x0a]) w) as Ht.
  destruct (conn_Write (b ++ [Byte.x0a]) w) as [[e|] w1]; simpl in *; by eexists.
Qed.

Lemma wrap_world msg r : (wrap msg r).2 = r.2.
Proof. by destruct r as [[e|] w]. Qed.

Lemma wrap_ok msg r w : wrap msg r = (None, w) -> r = (None, w).
Proof. destruct r as [[e|] w1]; simpl; congruence. Qed.

Lemma wrap_err msg r : is_Some (wrap msg r).1 <-> is_Some r.1.
Proof. destruct r as [[e|] w1]; simpl; split; intros [? ?]; eauto; done. Qed.

Lemma syncClient_extends c other w : extends w (syncClient c other w).2.
Proof.
  unfold syncClient. destruct (String.eqb _ _); [auto with world|].
  destruct (RadioInfo.Radios _); [auto with world|].
  destruct (_ && _); simpl; auto with world.
Qed.

Lemma syncClients_loop_extends others : forall c w,
  extends w (syncClients_loop c others w).2.
Proof.
  induction others as [|info rest IH]; intros c w; simpl; [apply extends_refl|].
  pose proof (syncClient_extends c info w) as H1.
  destruct (syncClient c info w) as [c1 w1]. eapply extends_trans; [exact H1|].
  apply IH.
Qed.

Lemma handleMessage_extends c m w :
  extends w (handleMessage json_Marshal c m w).2.
Proof.
  unfold handleMessage.
  destruct (Message.Type_ m); simpl;
    try apply extends_emit; try apply extends_refl;
    try apply syncClient_extends.
  - eapply extends_trans; [|apply syncClients_loop_extends]. apply extends_emit.
  - destruct (bool_decide _); [|apply extends_refl].
    unfold updateRadios.
    match goal with |- context [wrap ?m (Send _ ?msg ?w1)] =>
      pose proof (Send_extends msg w1) as Hs;
      rewrite <- (wrap_world m) in Hs;
      destruct (wrap m (Send json_Marshal msg w1)) as [[e|] w2]
    end; simpl in *.
    + eapply extends_trans; [apply extends_emit|].
      eapply extends_trans; [exact Hs|apply extends_emit].
    + eapply extends_trans; [apply extends_emit|exact Hs].
Qed.

Lemma Run_loop_extends inputs : forall c w,
  extends w (Run_loop json_Marshal c inputs w).2.
Proof.
  induction inputs as [|i rest IH]; intros c w; simpl; [apply extends_refl|].
  destruct i as [m|drained|e].
  - pose proof (handleMessage_extends (set_lastReceived (time_Now w) c) m w)
      as H1.
    destruct (handleMessage _ _ m w) as [c1 w1].
    eapply extends_trans; [exact H1|apply IH].
  - destruct drained; apply extends_emit.
  - apply extends_refl.
Qed.

Lemma Run_deferred_extends r : extends r.2 (Run_deferred r).2.
Proof.
  destruct r as [[[err|] c] w]; simpl; [|auto with world].
  unfold close, conn_Close. destruct (close_err w); simpl.
  - eapply extends_trans; apply extends_emit.
  - auto with world.
Qed.

Lemma Run_deferred_outcome r : (Run_deferred r).1.1 = r.1.1.
Proof.
  destruct r as [[[err|] c] w]; simpl; [|done].
  by destruct (close w) as [[e|] w1].
Qed.

Lemma Run_prelude_trace w :
  trace (Run_prelude w)
  = trace w ++ [EvLog LInfo "SRS data client starting"; EvGo "reader";
                EvCloseChan "readyCh"; EvLog LInfo "SRS data client ready";
                EvLog LInfo "sending initial sync message"].
Proof. unfold Run_prelude, log, emit. simpl. by rewrite <- !app_assoc. Qed.

(** C4, as the code has it.  [Run] starts the reader, closes the ready
    channel, and only then performs the handshake on the connection made at
    construction: everything [Run] writes comes after the closing of the
    ready channel.  The handshake sends the Sync message and then the
    ExternalAWACSModePassword message, both carrying the client's own
    ClientInfo; if either [Send] fails, [Run] returns an error. *)
Theorem Run_ready_then_handshake (c : dataClient) (inputs : list Select)
  (w : World) :
  let r := Run json_Marshal c inputs w in
  let w0 := Run_prelude w in
  (trace w0
   = trace w ++ [EvLog LInfo "SRS data client starting"; EvGo "reader";
                 EvCloseChan "readyCh"; EvLog LInfo "SRS data client ready";
                 EvLog LInfo "sending initial sync message"]
   /\ writes w0 = writes w
   /\ extends w0 r.2)
  /\ (is_Some (sync json_Marshal c w0).1 ->
      exists e, r.1.1 = Returned (Some e))
  /\ (forall w1,
        sync json_Marshal c w0 = (None, w1) ->
        let w1' := log LInfo "connecting to external AWACS mode" w1 in
        (exists bs,
           json_Marshal (newMessageWithClient c MessageSync) = inl bs
           /\ trace w1 = trace w0 ++ [EvWrite (clock w0) (bs ++ [Byte.x0a]) None])
        /\ (is_Some (connectExternalAWACSMode json_Marshal c w1').1 ->
            exists e, r.1.1 = Returned (Some e))
        /\ (forall w2,
              connectExternalAWACSMode json_Marshal c w1' = (None, w2) ->
              (exists m be,
                 Message.Type_ m = MessageExternalAWACSModePassword
                 /\ Message.Client m = clientInfo c
                 /\ Message.ExternalAWACSModePassword m
                    = externalAWACSModePassword c
                 /\ json_Marshal m = inl be
                 /\ trace w2
                    = trace w1' ++ [EvWrite (clock w1') (be ++ [Byte.x0a]) None])
              /\ r = Run_deferred (Run_loop json_Marshal c inputs w2))).
Proof.
  cbv zeta. split; [split; [apply Run_prelude_trace|split]|split].
  - unfold writes. rewrite Run_prelude_trace, List.filter_app. simpl.
    apply app_nil_r.
  - unfold Run. fold (Run_prelude w).
    eapply extends_trans; [|apply Run_deferred_extends].
    pose proof (Send_extends (newMessageWithClient c MessageSync)
                  (Run_prelude w)) as Hs.
    unfold sync. rewrite <- (wrap_world "sync failed") in Hs.
    destruct (wrap "sync failed" _) as [[e|] w1]; simpl in *; [done|].
    eapply extends_trans; [exact Hs|].
    eapply extends_trans; [apply extends_emit|].
    unfold connectExternalAWACSMode.
    match goal with |- context [wrap ?m (Send _ ?msg ?w1)] =>
      pose proof (Send_extends msg w1) as Hs2;
      rewrite <- (wrap_world m) in Hs2;
      destruct (wrap m (Send json_Marshal msg w1)) as [[e|] w2]
    end; simpl in *; [done|].
    eapply extends_trans; [exact Hs2|]. apply Run_loop_extends.
  - intros [e He]. unfold Run. fold (Run_prelude w).
    rewrite Run_deferred_outcome.
    destruct (sync json_Marshal c (Run_prelude w)) as [[e'|] w1];
      simpl in *; [eauto|done].
  - intros w1 Hsync. split; [|split].
    + unfold sync in Hsync. apply wrap_ok, Send_ok in Hsync. exact Hsync.
    + intros [e He]. unfold Run. fold (Run_prelude w).
      rewrite Run_deferred_outcome, Hsync.
      destruct (connectExternalAWACSMode json_Marshal c _) as [[e'|] w2];
        simpl in *; [eauto|done].
    + intros w2 Hc. split.
      * unfold connectExternalAWACSMode in Hc.
        apply wrap_ok, Send_ok in Hc as (be & Hm & Ht).
        eexists _, be. repeat split; [| | |exact Hm|exact Ht]; done.
      * unfold Run. fold (Run_prelude w). by rewrite Hsync, Hc.
Qed.

(** *** Reading the directory *)

Lemma In_directory_values (c : dataClient) e :
  In e (map_to_list (clients c)).*2 <-> exists g, clients c !! g = Some e.
Proof.
  rewrite <- list_elem_of_In, list_elem_of_fmap. split.
  - intros ([g e'] & -> & Hin). exists g. by apply elem_of_map_to_list.
  - intros [g Hg]. exists (g, e). split; [done|]. by apply elem_of_map_to_list.
Qed.

Lemma IsOnFrequency_loop_true c name entries :
  IsOnFrequency_loop c name entries = true <->
  exists e, In e entries /\ ClientInfo.Name e = name
            /\ RadioInfo_IsOnFrequency (ClientInfo.RadioInfo (clientInfo c))
                                       (ClientInfo.RadioInfo e) = true.
Proof.
  induction entries as [|client rest IH]; simpl.
  - split; [done|]. by intros (e & [] & _).
  - destruct (String.eqb (ClientInfo.Name client) name) eqn:Hn.
    + apply String.eqb_eq in Hn.
      destruct (RadioInfo_IsOnFrequency _ (ClientInfo.RadioInfo client)) eqn:Hf.
      * split; [|done]. intros _. exists client. auto.
      * rewrite IH. split.
        -- intros (e & Hin & He). exists e. auto.
        -- intros (e & [<-|Hin] & Hname & Hfr); [congruence|]. exists e. auto.
    + apply String.eqb_neq in Hn. rewrite IH. split.
      * intros (e & Hin & He). exists e. auto.
      * intros (e & [<-|Hin] & Hname & Hfr); [congruence|]. exists e. auto.
Qed.

(** X1. [IsOnFrequency(name)] is true exactly when some entry of the
    directory has that display name and is on frequency with the client;
    in particular it is false for every name while the directory is
    empty. *)
Theorem IsOnFrequency_iff (c : dataClient) (name : string) :
  (IsOnFrequency c name = true <->
   exists g e, clients c !! g = Some e /\ ClientInfo.Name e = name
               /\ RadioInfo_IsOnFrequency (ClientInfo.RadioInfo (clientInfo c))
                                          (ClientInfo.RadioInfo e) = true)
  /\ (clients c = ∅ -> IsOnFrequency c name = false).
Proof.
  assert (IsOnFrequency c name = true <->
          exists g e, clients c !! g = Some e /\ ClientInfo.Name e = name
            /\ RadioInfo_IsOnFrequency (ClientInfo.RadioInfo (clientInfo c))
                                       (ClientInfo.RadioInfo e) = true) as Hiff.
  { unfold IsOnFrequency. rewrite IsOnFrequency_loop_true. split.
    - intros (e & Hin & He). apply In_directory_values in Hin as [g Hg]. eauto.
    - intros (g & e & Hg & He). exists e. split; [|done].
      apply In_directory_values. eauto. }
  split; [exact Hiff|].
  intros Hempty. apply not_true_is_false. intros Ht.
  apply Hiff in Ht as (g & e & Hg & _). by rewrite Hempty, lookup_empty in Hg.
Qed.

Lemma ClientsOnFrequency_loop_count c entries : forall count,
  ClientsOnFrequency_loop c count entries
  = count + Z.of_nat (length (List.filter (on_frequency_with c) entries)).
Proof.
  induction entries as [|client rest IH]; intros count; simpl; [lia|].
  unfold on_frequency_with at 1.
  destruct (RadioInfo_IsOnFrequency _ _); rewrite IH; simpl; lia.
Qed.

Lemma ClientsOnFrequency_count c :
  ClientsOnFrequency c
  = Z.of_nat (length (List.filter (on_frequency_with c)
                                  (map_to_list (clients c)).*2)).
Proof. unfold ClientsOnFrequency. by rewrite ClientsOnFrequency_loop_count. Qed.

Lemma filter_length_le {A} (f : A -> bool) l :
  (length (List.filter f l) <= length l)%nat.
Proof. induction l as [|x l IH]; simpl; [lia|]. destruct (f x); simpl; lia. Qed.

Lemma filter_nil_iff {A} (f : A -> bool) l :
  List.filter f l = [] <-> forall x, In x l -> f x = false.
Proof.
  induction l as [|x l IH]; simpl; [by split|].
  destruct (f x) eqn:Hx; split.
  - done.
  - intros H. specialize (H x (or_introl eq_refl)). congruence.
  - intros Hf y [<-|Hy]; [done|]. by apply IH.
  - intros H. apply IH. intros y Hy. apply H. by right.
Qed.

(** X2. [ClientsOnFrequency] lies between 0 and the size of the
    directory; it is 0 exactly when [IsOnFrequency] is false for every
    name, and at least 1 as soon as [IsOnFrequency] is true for one. *)
Theorem ClientsOnFrequency_bounds (c : dataClient) :
  0 <= ClientsOnFrequency c <= Z.of_nat (size (clients c))
  /\ (ClientsOnFrequency c = 0 <-> forall name, IsOnFrequency c name = false)
  /\ (forall name, IsOnFrequency c name = true -> 1 <= ClientsOnFrequency c).
Proof.
  rewrite ClientsOnFrequency_count.
  set (entries := (map_to_list (clients c)).*2).
  assert (length entries = size (clients c)) as Hsize.
  { unfold entries. by rewrite length_fmap, length_map_to_list. }
  pose proof (filter_length_le (on_frequency_with c) entries) as Hle.
  assert (Z.of_nat (length (List.filter (on_frequency_with c) entries)) = 0
          <-> forall name, IsOnFrequency c name = false) as Hzero.
  { split.
    - intros Hz name. apply not_true_is_false. intros Ht.
      apply IsOnFrequency_loop_true in Ht as (e & Hin & _ & Hf).
      assert (List.filter (on_frequency_with c) entries = []) as Hnil
        by (apply length_zero_iff_nil; lia).
      pose proof (proj1 (filter_nil_iff _ _) Hnil e Hin) as He.
      unfold on_frequency_with in He. congruence.
    - intros Hall.
      assert (List.filter (on_frequency_with c) entries = []) as ->; [|done].
      apply filter_nil_iff. intros e Hin. apply not_true_is_false. intros He.
      specialize (Hall (ClientInfo.Name e)).
      assert (IsOnFrequency c (ClientInfo.Name e) = true); [|congruence].
      apply IsOnFrequency_loop_true. exists e. auto. }
  split; [lia|]. split; [exact Hzero|].
  intros name Ht.
  destruct (Z.eq_dec
              (Z.of_nat (length (List.filter (on_frequency_with c) entries))) 0)
    as [Hz|Hz]; [|lia].
  pose proof (proj1 Hzero Hz name). congruence.
Qed.

(** *** What the router keeps *)

Lemma handleMessage_inv (P : dataClient -> Prop) :
  (forall c other w, P c -> P (syncClient c other w).1) ->
  (forall c info, P c -> P (removeClient c info)) ->
  forall c m w, P c -> P (handleMessage json_Marshal c m w).1.
Proof.
  intros Hs Hr c m w Hc. unfold handleMessage.
  destruct (Message.Type_ m); simpl; auto.
  - unfold syncClients. by apply (syncClients_loop_inv P).
  - destruct (bool_decide _); [|done].
    by destruct (updateRadios _ _ _) as [[e|] w1].
Qed.

Lemma handleMessages_inv (P : dataClient -> Prop) :
  (forall c other w, P c -> P (syncClient c other w).1) ->
  (forall c info, P c -> P (removeClient c info)) ->
  forall ms c w, P c -> P (handleMessages json_Marshal c ms w).1.
Proof.
  intros Hs Hr ms. induction ms as [|m rest IH]; intros c w Hc; simpl; [done|].
  pose proof (handleMessage_inv P Hs Hr c m w Hc) as H1.
  destruct (handleMessage json_Marshal c m w) as [c1 w1]. by apply IH.
Qed.

Lemma Run_inv (P : dataClient -> Prop) :
  (forall c other w, P c -> P (syncClient c other w).1) ->
  (forall c info, P c -> P (removeClient c info)) ->
  (forall c t, P c -> P (set_lastReceived t c)) ->
  forall c inputs w, P c -> P (Run json_Marshal c inputs w).1.2.
Proof.
  intros Hs Hr Hl c inputs w Hc. unfold Run.
  assert (forall r, P r.1.2 -> P (Run_deferred r).1.2) as Hd.
  { intros [[[err|] c1] w1]; simpl; [|done].
    by destruct (close w1) as [[e|] w2]. }
  apply Hd.
  destruct (sync _ _ _) as [[e|] w1]; [done|].
  destruct (connectExternalAWACSMode _ _ _) as [[e|] w2]; [done|].
  clear Hd. generalize dependent w2. generalize dependent c.
  induction inputs as [|i rest IH]; intros c Hc w2; simpl; [done|].
  destruct i as [m|drained|e]; [|by destruct drained|done].
  pose proof (handleMessage_inv P Hs Hr (set_lastReceived (time_Now w2) c) m w2
                (Hl _ _ Hc)) as H1.
  destruct (handleMessage _ _ m w2) as [c1 w3]. by apply IH.
Qed.

Lemma syncClient_well_kept c0 c other w :
  well_kept c0 c -> well_kept c0 (syncClient c other w).1.
Proof.
  intros [Hi Hd]. split; [by rewrite syncClient_clientInfo|].
  intros g e. unfold directory_ok, entry_ok in *.
  rewrite syncClient_clientInfo. unfold syncClient.
  destruct (String.eqb _ _) eqn:Heq; [apply Hd|].
  apply String.eqb_neq in Heq.
  destruct (RadioInfo.Radios (ClientInfo.RadioInfo other)) as [|r rs] eqn:Hr;
    [apply Hd|].
  destruct (bool_decide _ || _) eqn:Hco;
    destruct (RadioInfo_IsOnFrequency _ (ClientInfo.RadioInfo other)) eqn:Hfr;
    simpl; try (intros [_ Hg]%lookup_delete_Some; by apply Hd).
  intros [[<- <-]|[_ Hg]]%lookup_insert_Some; [|by apply Hd].
  rewrite Hr. repeat split; try done.
  apply orb_true_iff in Hco as [Hco|Hco]; [left|by right].
  by apply bool_decide_eq_true in Hco.
Qed.

Lemma removeClient_well_kept c0 c info :
  well_kept c0 c -> well_kept c0 (removeClient c info).
Proof.
  intros [Hi Hd]. split; [done|]. intros g e. unfold removeClient. simpl.
  intros [_ Hg]%lookup_delete_Some. by apply Hd.
Qed.

Lemma set_lastReceived_well_kept c0 c t :
  well_kept c0 c -> well_kept c0 (set_lastReceived t c).
Proof. by intros [Hi Hd]. Qed.

Lemma NewClient_well_kept guid config :
  well_kept (NewClient guid config) (NewClient guid config).
Proof. split; [done|]. intros g e. simpl. by rewrite lookup_empty. Qed.

(** X3. From the client that [NewClient] builds, whatever messages are
    handled: every entry of the directory is stored under its own GUID,
    which is not the client's; it has at least one radio, is of the
    client's coalition or a spectator, and is on frequency with the
    client.  This holds after any sequence of messages and at the end of
    any [Run]. *)
Theorem directory_entries_compatible (guid : GUID)
  (config : ClientConfiguration.t) (ms : list Message.t)
  (inputs : list Select) (w : World) :
  directory_ok (handleMessages json_Marshal (NewClient guid config) ms w).1
  /\ directory_ok (Run json_Marshal (NewClient guid config) inputs w).1.2.
Proof.
  split.
  - apply (handleMessages_inv (well_kept (NewClient guid config)));
      auto using syncClient_well_kept, removeClient_well_kept,
        NewClient_well_kept.
  - apply (Run_inv (well_kept (NewClient guid config)));
      auto using syncClient_well_kept, removeClient_well_kept,
        set_lastReceived_well_kept, NewClient_well_kept.
Qed.

Lemma filter_all {A} (f : A -> bool) l :
  (forall x, In x l -> f x = true) -> List.filter f l = l.
Proof.
  induction l as [|x l IH]; simpl; [done|]. intros H.
  rewrite (H x (or_introl eq_refl)). f_equal. apply IH. auto.
Qed.

Lemma directory_ok_count c :
  directory_ok c ->
  ClientsOnFrequency c = Z.of_nat (size (clients c))
  /\ forall name,
       IsOnFrequency c name = true <->
       exists g e, clients c !! g = Some e /\ ClientInfo.Name e = name.
Proof.
  intros Hok. split.
  - rewrite ClientsOnFrequency_count, filter_all.
    + by rewrite length_fmap, length_map_to_list.
    + intros e [g Hg]%In_directory_values. by apply (Hok g e Hg).
  - intros name. unfold IsOnFrequency. rewrite IsOnFrequency_loop_true. split.
    + intros (e & [g Hg]%In_directory_values & Hn & _). eauto.
    + intros (g & e & Hg & Hn). exists e.
      split; [apply In_directory_values; eauto|]. split; [done|].
      by apply (Hok g e Hg).
Qed.

(** X4. From the client that [NewClient] builds, after any sequence of
    messages: [ClientsOnFrequency] is the number of entries of the
    directory, and [IsOnFrequency(name)] is true exactly when the
    directory has an entry with that display name. *)
Theorem ClientsOnFrequency_is_directory_size (guid : GUID)
  (config : ClientConfiguration.t) (ms : list Message.t) (w : World) :
  let c := (handleMessages json_Marshal (NewClient guid config) ms w).1 in
  ClientsOnFrequency c = Z.of_nat (size (clients c))
  /\ forall name,
       IsOnFrequency c name = true <->
       exists g e, clients c !! g = Some e /\ ClientInfo.Name e = name.
Proof.
  cbv zeta. apply directory_ok_count.
  apply (handleMessages_inv (well_kept (NewClient guid config)));
    auto using syncClient_well_kept, removeClient_well_kept,
      NewClient_well_kept.
Qed.

(** *** What the router leaves alone *)

Lemma syncClient_single_peer_fields c other w :
  clientInfo (syncClient c other w).1 = clientInfo c
  /\ externalAWACSModePassword (syncClient c other w).1
     = externalAWACSModePassword c
  /\ lastReceived (syncClient c other w).1 = lastReceived c.
Proof.
  unfold syncClient. destruct (String.eqb _ _); [done|].
  destruct (RadioInfo.Radios _); [done|]. by destruct (_ && _).
Qed.

Lemma syncClient_frame c other w g :
  g <> ClientInfo.GUID other ->
  clients (syncClient c other w).1 !! g = clients c !! g.
Proof.
  intros Hg. unfold syncClient. destruct (String.eqb _ _); [done|].
  destruct (RadioInfo.Radios _); [done|].
  destruct (_ && _); simpl.
  - by rewrite lookup_insert_ne.
  - by rewrite lookup_delete_ne.
Qed.

Lemma syncClients_loop_frame others g : forall c w,
  (forall o, In o others -> ClientInfo.GUID o <> g) ->
  clients (syncClients_loop c others w).1 !! g = clients c !! g.
Proof.
  induction others as [|info rest IH]; intros c w Hn; simpl; [done|].
  pose proof (syncClient_frame c info w g) as H1.
  destruct (syncClient c info w) as [c1 w1]. simpl in H1.
  rewrite IH; [apply H1|].
  - intros Heq. apply (Hn info); [by left|done].
  - intros o Ho. apply Hn. by right.
Qed.

Lemma syncClients_loop_fields others : forall c w,
  clientInfo (syncClients_loop c others w).1 = clientInfo c
  /\ externalAWACSModePassword (syncClients_loop c others w).1
     = externalAWACSModePassword c
  /\ lastReceived (syncClients_loop c others w).1 = lastReceived c.
Proof.
  induction others as [|info rest IH]; intros c w; simpl; [done|].
  pose proof (syncClient_single_peer_fields c info w) as H1.
  destruct (syncClient c info w) as [c1 w1]. simpl in H1.
  destruct (IH c1 w1) as (-> & -> & ->). done.
Qed.

(** X5. Handling a message changes no entry of the directory but those
    under the GUIDs the message names (the GUID of its Client, the GUIDs
    of its Clients), and never changes the client's own ClientInfo, its
    password or its last-received time. *)
Theorem handleMessage_frame (c : dataClient) (m : Message.t) (w : World)
  (g : string) :
  let c' := (handleMessage json_Marshal c m w).1 in
  (~ named m g -> clients c' !! g = clients c !! g)
  /\ clientInfo c' = clientInfo c
  /\ externalAWACSModePassword c' = externalAWACSModePassword c
  /\ lastReceived c' = lastReceived c.
Proof.
  cbv zeta. unfold handleMessage, named.
  destruct (Message.Type_ m); simpl; try done.
  - split.
    + intros Hn. unfold syncClients. apply syncClients_loop_frame.
      intros o Ho Heq. apply Hn. right. eauto.
    + apply syncClients_loop_fields.
  - split; [|apply syncClient_single_peer_fields].
    intros Hn. apply syncClient_frame. intros ->. apply Hn. by left.
  - split; [|apply syncClient_single_peer_fields].
    intros Hn. apply syncClient_frame. intros ->. apply Hn. by left.
  - split; [|done]. intros Hn. apply lookup_delete_ne. intros <-.
    apply Hn. by left.
  - destruct (bool_decide _); [|done].
    by destruct (updateRadios _ _ _) as [[e|] w1].
Qed.

(** *** How updates compose *)

(** X6. The last update of a peer decides: when two ClientInfos with the
    same GUID are synchronised one after the other and the second has at
    least one radio, the directory is what synchronising the second alone
    gives. *)
Theorem syncClient_last_wins (c : dataClient) (o1 o2 : ClientInfo.t)
  (w w' : World) :
  ClientInfo.GUID o1 = ClientInfo.GUID o2 ->
  RadioInfo.Radios (ClientInfo.RadioInfo o2) <> [] ->
  clients (syncClient (syncClient c o1 w).1 o2 w').1
  = clients (syncClient c o2 w').1.
Proof.
  intros Hg Hr.
  pose proof (syncClient_clientInfo c o1 w) as Hi.
  unfold syncClient at 1 3. rewrite Hi.
  destruct (String.eqb (ClientInfo.GUID o2) _) eqn:Heq.
  { unfold syncClient. by rewrite Hg, Heq. }
  destruct (RadioInfo.Radios (ClientInfo.RadioInfo o2)) as [|r rs]; [done|].
  assert (clients (syncClient c o1 w).1 = clients c
          \/ (exists x, clients (syncClient c o1 w).1
                        = <[ClientInfo.GUID o2 := x]> (clients c))
          \/ clients (syncClient c o1 w).1
             = delete (ClientInfo.GUID o2) (clients c)) as Hc1.
  { unfold syncClient. rewrite Hg, Heq.
    destruct (RadioInfo.Radios (ClientInfo.RadioInfo o1)); [by left|].
    destruct (_ && _); simpl; [right; left; eauto|by right; right]. }
  destruct (_ && _); simpl;
    destruct Hc1 as [->|[[x ->]| ->]];
    by rewrite ?insert_insert_eq, ?insert_delete_eq, ?delete_insert_eq,
         ?delete_delete_eq.
Qed.

(** X8. A peer that joins and then leaves: when the directory has no
    entry under a GUID, an Update for that GUID followed by a
    ClientDisconnect for it leaves the directory as it was, whether or not
    the Update was taken in. *)
Theorem join_then_leave (c : dataClient) (o : ClientInfo.t)
  (mU mD : Message.t) (w : World) :
  clients c !! ClientInfo.GUID o = None ->
  Message.Type_ mU = MessageUpdate -> Message.Client mU = o ->
  Message.Type_ mD = MessageClientDisconnect ->
  ClientInfo.GUID (Message.Client mD) = ClientInfo.GUID o ->
  clients (handleMessages json_Marshal c [mU; mD] w).1 = clients c.
Proof.
  intros Hnone HtU HcU HtD HcD. simpl. unfold handleMessage at 1.
  rewrite HtU, HcU.
  destruct (syncClient c o w) as [c1 w1] eqn:Hs.
  unfold handleMessage. rewrite HtD. simpl. rewrite HcD.
  replace c1 with (syncClient c o w).1 by (by rewrite Hs).
  unfold syncClient. destruct (String.eqb _ _); [by apply delete_id|].
  destruct (RadioInfo.Radios _); [by apply delete_id|].
  destruct (_ && _); simpl.
  - rewrite delete_insert_eq. by apply delete_id.
  - rewrite delete_delete_eq. by apply delete_id.
Qed.

Lemma syncClient_client_indep c other w w' :
  (syncClient c other w).1 = (syncClient c other w').1.
Proof.
  unfold syncClient. destruct (String.eqb _ _); [done|].
  destruct (RadioInfo.Radios _); [done|]. by destruct (_ && _).
Qed.

(** X14. A Sync message does to the directory what one Update per entry
    of its Clients does, in the same order: nothing more (entries of peers
    that the Sync does not list stay), nothing less. *)
Theorem Sync_as_Updates (c : dataClient) (m : Message.t)
  (updates : list Message.t) (w w' : World) :
  Message.Type_ m = MessageSync ->
  Forall2 (fun o u => Message.Type_ u = MessageUpdate /\ Message.Client u = o)
          (Message.Clients m) updates ->
  clients (handleMessage json_Marshal c m w).1
  = clients (handleMessages json_Marshal c updates w').1.
Proof.
  intros Hty Hall. unfold handleMessage. rewrite Hty. unfold syncClients.
  generalize (log LInfo "syncronizing clients" w). intros w1.
  revert c w1 w'.
  induction Hall as [|o u os us [Hu Hc] _ IH]; intros c w1 w'; simpl; [done|].
  unfold handleMessage at 1. rewrite Hu, Hc.
  rewrite (surjective_pairing (syncClient c o w1)),
    (surjective_pairing (syncClient c o w')).
  rewrite (syncClient_client_indep c o w1 w'). apply IH.
Qed.

(** *** What the data client does to the world *)

Lemma runs_on_refl w : runs_on w w.
Proof.
  split; [done|]. split; [reflexivity|]. exists []. by rewrite app_nil_r.
Qed.

Lemma runs_on_trans w1 w2 w3 : runs_on w1 w2 -> runs_on w2 w3 -> runs_on w1 w3.
Proof.
  intros (Hc1 & Hs1 & e1 & Ht1 & Hf1) (Hc2 & Hs2 & e2 & Ht2 & Hf2).
  split; [congruence|]. split; [by etrans|].
  exists (e1 ++ e2). split; [by rewrite Ht2, Ht1, app_assoc|].
  by apply Forall_app.
Qed.

Lemma runs_on_log lvl msg w : runs_on w (log lvl msg w).
Proof.
  split; [done|]. split; [reflexivity|]. exists [EvLog lvl msg]. split; [done|].
  by repeat constructor.
Qed.

Lemma elapse_close_err w : close_err (elapse w) = close_err w.
Proof. unfold elapse. by destruct (lapses w). Qed.

Lemma runs_on_conn_Write b w : runs_on w (conn_Write b w).2.
Proof.
  pose proof (conn_Write_trace b w) as Ht.
  split; [|split].
  - unfold conn_Write. destruct (write_errs w); simpl;
      by rewrite elapse_close_err.
  - clear Ht. unfold conn_Write.
    destruct (write_errs w) as [|r rs] eqn:E; simpl;
      rewrite elapse_write_errs; simpl; rewrite ?E;
      [reflexivity|by apply suffix_cons_r].
  - eexists. split; [exact Ht|]. by repeat constructor.
Qed.

Lemma runs_on_Send message w : runs_on w (Send json_Marshal message w).2.
Proof.
  unfold Send. destruct (String.eqb _ _); [apply runs_on_refl|].
  destruct (json_Marshal message) as [b|e]; [|apply runs_on_refl].
  pose proof (runs_on_conn_Write (b ++ [Byte.x0a]) w) as H.
  by destruct (conn_Write (b ++ [Byte.x0a]) w) as [[e|] w1].
Qed.

Lemma runs_on_syncClient c other w : runs_on w (syncClient c other w).2.
Proof.
  unfold syncClient. destruct (String.eqb _ _); [apply runs_on_refl|].
  destruct (RadioInfo.Radios _); [apply runs_on_refl|].
  destruct (_ && _); apply runs_on_log.
Qed.

Lemma runs_on_syncClients_loop others : forall c w,
  runs_on w (syncClients_loop c others w).2.
Proof.
  induction others as [|info rest IH]; intros c w; simpl; [apply runs_on_refl|].
  pose proof (runs_on_syncClient c info w) as H1.
  destruct (syncClient c info w) as [c1 w1].
  eapply runs_on_trans; [exact H1|apply IH].
Qed.

Lemma runs_on_handleMessage c m w :
  runs_on w (handleMessage json_Marshal c m w).2.
Proof.
  unfold handleMessage.
  destruct (Message.Type_ m); simpl;
    try apply runs_on_log; try apply runs_on_refl;
    try apply runs_on_syncClient.
  - eapply runs_on_trans; [apply runs_on_log|apply runs_on_syncClients_loop].
  - destruct (bool_decide _); [|apply runs_on_refl].
    unfold updateRadios.
    match goal with |- context [wrap ?msg (Send _ ?m0 ?w1)] =>
      pose proof (runs_on_Send m0 w1) as Hs;
      rewrite <- (wrap_world msg) in Hs;
      destruct (wrap msg (Send json_Marshal m0 w1)) as [[e|] w2]
    end; simpl in *.
    + eapply runs_on_trans; [apply runs_on_log|].
      eapply runs_on_trans; [exact Hs|apply runs_on_log].
    + eapply runs_on_trans; [apply runs_on_log|exact Hs].
Qed.

Lemma runs_on_Run_loop inputs : forall c w,
  runs_on w (Run_loop json_Marshal c inputs w).2.
Proof.
  induction inputs as [|i rest IH]; intros c w; simpl; [apply runs_on_refl|].
  destruct i as [m|drained|e].
  - pose proof (runs_on_handleMessage (set_lastReceived (time_Now w) c) m w)
      as H1.
    destruct (handleMessage _ _ m w) as [c1 w1].
    eapply runs_on_trans; [exact H1|apply IH].
  - destruct drained; apply runs_on_log.
  - apply runs_on_refl.
Qed.

Lemma writes_emit e w :
  writes (emit e w) = writes w ++ List.filter is_write [e].
Proof. unfold writes. simpl. apply List.filter_app. Qed.

Lemma writes_log lvl msg w : writes (log lvl msg w) = writes w.
Proof. unfold log. rewrite writes_emit. apply app_nil_r. Qed.

Lemma writes_syncClient c other w : writes (syncClient c other w).2 = writes w.
Proof.
  unfold syncClient. destruct (String.eqb _ _); [done|].
  destruct (RadioInfo.Radios _); [done|].
  destruct (_ && _); apply writes_log.
Qed.

Lemma writes_syncClients_loop others : forall c w,
  writes (syncClients_loop c others w).2 = writes w.
Proof.
  induction others as [|info rest IH]; intros c w; simpl; [done|].
  pose proof (writes_syncClient c info w) as H1.
  destruct (syncClient c info w) as [c1 w1]. simpl in H1. by rewrite IH.
Qed.

Lemma writes_conn_Write b w :
  writes (conn_Write b w).2
  = writes w ++ [EvWrite (clock w) b (next_write_err w)].
Proof. unfold writes. rewrite conn_Write_trace. apply List.filter_app. Qed.

(** X7. Only Sync, Update, RadioUpdate and ClientDisconnect messages can
    change the client; only an ExternalAWACSModePassword message makes the
    client write.  Such a message from another coalition does nothing at
    all; from the client's own coalition it makes the client send one
    line, the RadioUpdate message carrying its own ClientInfo (when that
    message serializes), and leaves the client as it is even when the
    write fails. *)
Theorem handleMessage_other_types (c : dataClient) (m : Message.t)
  (w : World) :
  let r := handleMessage json_Marshal c m w in
  (Message.Type_ m <> MessageSync -> Message.Type_ m <> MessageUpdate ->
   Message.Type_ m <> MessageRadioUpdate ->
   Message.Type_ m <> MessageClientDisconnect -> r.1 = c)
  /\ (Message.Type_ m <> MessageExternalAWACSModePassword ->
      writes r.2 = writes w)
  /\ (Message.Type_ m = MessageExternalAWACSModePassword ->
      ClientInfo.Coalition (Message.Client m)
      <> ClientInfo.Coalition (clientInfo c) ->
      r = (c, w))
  /\ (Message.Type_ m = MessageExternalAWACSModePassword ->
      ClientInfo.Coalition (Message.Client m)
      = ClientInfo.Coalition (clientInfo c) ->
      forall b,
        json_Marshal (newMessageWithClient c MessageRadioUpdate) = inl b ->
        writes r.2
        = writes w ++ [EvWrite (clock w) (b ++ [Byte.x0a]) (next_write_err w)]).
Proof.
  cbv zeta. unfold handleMessage.
  destruct (Message.Type_ m) eqn:Hty; simpl;
    (split; [try done|split; [try done|split; [try done|try done]]]);
    try (intros _; apply writes_log);
    try (intros _; apply writes_syncClient).
  - intros _. unfold syncClients. rewrite writes_syncClients_loop.
    apply writes_log.
  - intros _ _ _ _. destruct (bool_decide _); [|done].
    by destruct (updateRadios _ _ _) as [[e|] w1].
  - intros _ Hne. by rewrite bool_decide_eq_false_2.
  - intros _ Heq b Hb. rewrite bool_decide_eq_true_2 by done.
    unfold updateRadios, Send. simpl String.eqb. cbv iota. rewrite Hb.
    set (w1 := log LDebug "received external AWACS mode password message" w).
    pose proof (writes_conn_Write (b ++ [Byte.x0a]) w1) as Hw.
    destruct (conn_Write (b ++ [Byte.x0a]) w1) as [[e|] w2]; simpl in *;
      rewrite ?writes_log, Hw; unfold w1; by rewrite writes_log.
Qed.

(** *** How [Run] ends *)

Lemma Run_unfold c inputs w :
  Run json_Marshal c inputs w
  = Run_deferred (Run_body json_Marshal c inputs (Run_prelude w)).
Proof. reflexivity. Qed.

Lemma runs_on_wrap msg r w : runs_on w r.2 -> runs_on w (wrap msg r).2.
Proof. by rewrite wrap_world. Qed.

Lemma runs_on_Run_body c inputs w :
  runs_on w (Run_body json_Marshal c inputs w).2.
Proof.
  unfold Run_body, sync, connectExternalAWACSMode.
  match goal with |- context [wrap ?msg (Send _ ?m0 w)] =>
    pose proof (runs_on_wrap msg _ _ (runs_on_Send m0 w)) as Hs;
    destruct (wrap msg (Send json_Marshal m0 w)) as [[e|] w1]
  end; simpl in *; [done|].
  eapply runs_on_trans; [exact Hs|].
  eapply runs_on_trans; [apply runs_on_log|].
  match goal with |- context [wrap ?msg (Send _ ?m0 ?w0)] =>
    pose proof (runs_on_wrap msg _ _ (runs_on_Send m0 w0)) as Hs2;
    destruct (wrap msg (Send json_Marshal m0 w0)) as [[e|] w2]
  end; simpl in *; [done|].
  eapply runs_on_trans; [exact Hs2|apply runs_on_Run_loop].
Qed.

(** X9. [Run] closes the connection when, and only when, it returns, and
    after everything else: what [Run] does is its five opening steps (with
    the one closing of the ready channel), then only log lines and writes,
    then, if it returns, the closing of the connection (followed by one
    error line when the closing fails).  When [Run] is left waiting, the
    connection stays open. *)
Theorem Run_closes_on_return (c : dataClient) (inputs : list Select)
  (w : World) :
  let r := Run json_Marshal c inputs w in
  exists mid,
    Forall (fun e => is_log e || is_write e = true) mid
    /\ trace r.2
       = trace w
         ++ [EvLog LInfo "SRS data client starting"; EvGo "reader";
             EvCloseChan "readyCh"; EvLog LInfo "SRS data client ready";
             EvLog LInfo "sending initial sync message"]
         ++ mid
         ++ match r.1.1 with
            | Returned _ =>
                EvCloseConn
                  :: match close_err w with
                     | Some _ => [EvLog LError "error closing SRS client"]
                     | None => []
                     end
            | Blocked => []
            end.
Proof.
  cbv zeta. rewrite Run_unfold.
  pose proof (Run_prelude_trace w) as Hp.
  assert (close_err (Run_prelude w) = close_err w) as Hc0 by done.
  set (w0 := Run_prelude w) in *. clearbody w0.
  destruct (runs_on_Run_body c inputs w0) as (Hce & _ & mid & Ht & Hmid).
  exists mid. split; [exact Hmid|].
  rewrite Run_deferred_outcome.
  destruct (Run_body json_Marshal c inputs w0) as [[[err|] c1] w1];
    simpl in *.
  - unfold close, conn_Close. rewrite Hce, Hc0.
    destruct (close_err w); simpl; rewrite Ht, Hp, <- !app_assoc; done.
  - rewrite Ht, Hp, <- !app_assoc. by rewrite app_nil_r.
Qed.

Lemma Send_error message w err w' :
  Send json_Marshal message w = (Some err, w') ->
  Message.Version message <> "" ->
  (exists e, json_Marshal message = inr e /\ cause err = cause e)
  \/ (exists e, next_write_err w = Some e /\ cause err = cause e).
Proof.
  unfold Send. intros Hs Hv. apply String.eqb_neq in Hv. rewrite Hv in Hs.
  destruct (json_Marshal message) as [b|e].
  - pose proof (conn_Write_result (b ++ [Byte.x0a]) w) as Hr.
    destruct (conn_Write (b ++ [Byte.x0a]) w) as [[e|] w1]; [|done].
    injection Hs as <- <-. right. exists e. by rewrite <- Hr.
  - injection Hs as <- <-. left. by exists e.
Qed.

Lemma wrap_error msg r err w :
  wrap msg r = (Some err, w) ->
  exists e, r = (Some e, w) /\ cause err = cause e.
Proof.
  destruct r as [[e|] w1]; simpl; [|done]. intros [= <- <-]. by exists e.
Qed.

Lemma next_write_err_In w e :
  next_write_err w = Some e -> In (Some e) (write_errs w).
Proof.
  unfold next_write_err. destruct (write_errs w) as [|r rs]; [done|].
  intros ->. by left.
Qed.

Lemma In_suffix {A} (l1 l2 : list A) x :
  l1 `suffix_of` l2 -> In x l1 -> In x l2.
Proof. intros [k ->] Hin. apply in_or_app. by right. Qed.

Lemma Run_loop_error inputs : forall c w err,
  (Run_loop json_Marshal c inputs w).1.1 = Returned (Some err) ->
  exists e, In (RecvError e) inputs /\ err = fmt_Errorf "data client error" e.
Proof.
  induction inputs as [|i rest IH]; intros c w err; simpl; [done|].
  destruct i as [m|drained|e].
  - destruct (handleMessage _ _ m w) as [c1 w1]. intros H.
    destruct (IH _ _ _ H) as (e & Hin & He). eauto.
  - by destruct drained.
  - intros [= <-]. eauto.
Qed.

(** X10. An error that [Run] returns always wraps its cause: unwrapping
    it arrives at the error of a failed serialization of one of the
    client's own messages, at an error returned by a write on the
    connection, or at an error delivered by the reader. *)
Theorem Run_error_cause (c : dataClient) (inputs : list Select) (w : World)
  (err : error) :
  (Run json_Marshal c inputs w).1.1 = Returned (Some err) ->
  (exists m e, json_Marshal m = inr e /\ Message.Client m = clientInfo c
               /\ cause err = cause e)
  \/ (exists e, In (Some e) (write_errs w) /\ cause err = cause e)
  \/ (exists e, In (RecvError e) inputs /\ cause err = cause e).
Proof.
  rewrite Run_unfold, Run_deferred_outcome. unfold Run_body.
  set (w0 := Run_prelude w).
  assert (write_errs w0 = write_errs w) as Hw0 by done.
  destruct (sync json_Marshal c w0) as [[e1|] w1] eqn:Hsync.
  { simpl. intros [= <-]. unfold sync in Hsync.
    apply wrap_error in Hsync as (e & Hs & Hc).
    apply Send_error in Hs as [(e' & Hm & Hc')|(e' & Hn & Hc')]; [| |done].
    - left. eexists _, e'. split; [exact Hm|]. split; [done|].
      simpl. congruence.
    - right; left. exists e'. split; [|simpl; congruence].
      rewrite <- Hw0. by apply next_write_err_In. }
  assert (runs_on w0 w1) as Hr1.
  { pose proof (runs_on_wrap "sync failed" _ _
                  (runs_on_Send (newMessageWithClient c MessageSync) w0)) as H.
    unfold sync in Hsync. by rewrite Hsync in H. }
  set (w1' := log LInfo "connecting to external AWACS mode" w1).
  destruct (connectExternalAWACSMode json_Marshal c w1') as [[e2|] w2] eqn:Hc2.
  { simpl. intros [= <-]. unfold connectExternalAWACSMode in Hc2.
    apply wrap_error in Hc2 as (e & Hs & Hc).
    apply Send_error in Hs as [(e' & Hm & Hc')|(e' & Hn & Hc')]; [| |done].
    - left. eexists _, e'. split; [exact Hm|]. split; [done|].
      simpl. congruence.
    - right; left. exists e'. split; [|simpl; congruence].
      rewrite <- Hw0. destruct Hr1 as (_ & Hsuf & _).
      apply (In_suffix _ _ _ Hsuf). by apply next_write_err_In. }
  intros Hloop. apply Run_loop_error in Hloop as (e & Hin & ->).
  right; right. by exists e.
Qed.

Lemma Run_loop_stop s post pre : forall c w,
  is_message s = false ->
  Run_loop json_Marshal c (pre ++ s :: post) w
  = Run_loop json_Marshal c (pre ++ [s]) w.
Proof.
  induction pre as [|i pre IH]; intros c w Hs; simpl.
  - by destruct s.
  - destruct i as [m|drained|e]; [|done|done].
    destruct (handleMessage _ _ m w) as [c1 w1]. by apply IH.
Qed.

Lemma Run_loop_nil inputs : forall c w,
  (Run_loop json_Marshal c inputs w).1.1 = Returned None ->
  In (CtxDone true) inputs.
Proof.
  induction inputs as [|i rest IH]; intros c w; simpl; [done|].
  destruct i as [m|drained|e]; [|destruct drained; [by left|done]|done].
  destruct (handleMessage _ _ m w) as [c1 w1]. intros H. right. eauto.
Qed.

(** X11. [Run] returns nil only when the context is canceled, and it
    stops at the first cancellation or reader error it receives: what
    would have come after that is never handled. *)
Theorem Run_stops_at_first_stop (c : dataClient) (inputs : list Select)
  (w : World) :
  ((Run json_Marshal c inputs w).1.1 = Returned None ->
   In (CtxDone true) inputs)
  /\ (forall pre s post,
        is_message s = false ->
        Run json_Marshal c (pre ++ s :: post) w
        = Run json_Marshal c (pre ++ [s]) w).
Proof.
  split.
  - rewrite Run_unfold, Run_deferred_outcome. unfold Run_body.
    destruct (sync _ _ _) as [[e|] w1]; [done|].
    destruct (connectExternalAWACSMode _ _ _) as [[e|] w2]; [done|].
    apply Run_loop_nil.
  - intros pre s post Hs. rewrite !Run_unfold. f_equal. unfold Run_body.
    destruct (sync _ _ _) as [[e|] w1]; [done|].
    destruct (connectExternalAWACSMode _ _ _) as [[e|] w2]; [done|].
    by apply Run_loop_stop.
Qed.

(** *** The reader *)

Variable json_Unmarshal : Bytes -> Message.t + error.

Lemma reader_deliveries_eq steps :
  (reader json_Unmarshal steps).2
  = omap (delivered json_Unmarshal) (before_stop steps)
    ++ match stop_error steps with
       | Some e => [RecvError e]
       | None => []
       end.
Proof.
  induction steps as [|s rest IH]; simpl; [done|].
  destruct s as [|line|partial|partial err]; simpl; try done.
  - destruct (json_Unmarshal line) as [m|e];
      destruct (reader json_Unmarshal rest) as [evs out]; simpl in *;
      by rewrite IH.
  - destruct (reader json_Unmarshal rest) as [evs out]; simpl in *.
    by rewrite IH.
Qed.

(** X12. The reader offers the messages of the lines that parse, in the
    order they were read, up to its first cancellation or failed read;
    lines that do not parse and end-of-file conditions are passed over; a
    failed read is offered as the last thing, and nothing after it. *)
Theorem reader_deliveries (steps : list ReaderStep) :
  (reader json_Unmarshal steps).2
  = omap (delivered json_Unmarshal) (before_stop steps)
    ++ match stop_error steps with
       | Some e => [RecvError e]
       | None => []
       end
  /\ (forall line rest e,
        json_Unmarshal line = inr e ->
        (reader json_Unmarshal (ReadLine line :: rest)).2
        = (reader json_Unmarshal rest).2)
  /\ (forall partial rest,
        (reader json_Unmarshal (ReadEOF partial :: rest)).2
        = (reader json_Unmarshal rest).2).
Proof.
  split; [apply reader_deliveries_eq|]. split.
  - intros line rest e He. simpl. rewrite He.
    by destruct (reader json_Unmarshal rest).
  - intros partial rest. simpl. by destruct (reader json_Unmarshal rest).
Qed.

Lemma delivered_is_message s d :
  delivered json_Unmarshal s = Some d -> is_message d = true.
Proof.
  destruct s as [|line|partial|partial err]; simpl; try done.
  destruct (json_Unmarshal line); [|done]. by intros [= <-].
Qed.

Lemma Run_loop_messages_then_error msgs e : forall c w,
  Forall (fun s => is_message s = true) msgs ->
  (Run_loop json_Marshal c (msgs ++ [RecvError e]) w).1.1
  = Returned (Some (fmt_Errorf "data client error" e)).
Proof.
  induction msgs as [|s msgs IH]; intros c w Hall; simpl; [done|].
  apply Forall_cons in Hall as [Hs Hall].
  destruct s as [m|drained|e']; [|done|done].
  destruct (handleMessage _ _ m w) as [c1 w1]. by apply IH.
Qed.

(** X13. A failed read is fatal: when the handshake has succeeded and the
    reader meets a failed read before any cancellation, [Run], receiving
    what the reader offers, returns that error wrapped as a data client
    error, whatever lines were read before. *)
Theorem read_error_is_fatal (c : dataClient) (steps : list ReaderStep)
  (e : error) (w w1 w2 : World) :
  stop_error steps = Some e ->
  sync json_Marshal c (Run_prelude w) = (None, w1) ->
  connectExternalAWACSMode json_Marshal c
    (log LInfo "connecting to external AWACS mode" w1) = (None, w2) ->
  (Run json_Marshal c (reader json_Unmarshal steps).2 w).1.1
  = Returned (Some (fmt_Errorf "data client error" e)).
Proof.
  intros Hstop Hsync Hconn.
  rewrite Run_unfold, Run_deferred_outcome. unfold Run_body.
  rewrite Hsync, Hconn, reader_deliveries_eq, Hstop.
  apply Run_loop_messages_then_error.
  apply Forall_forall. intros d Hd.
  apply list_elem_of_omap in Hd as (s & _ & Hs).
  by apply delivered_is_message in Hs.
Qed.

End DataClientFacts.

(** * Properties of the audio transmitter *)

Section AudioFacts.
Import rt types audio.

Context {VoicePacket : Type}.
Variable Encode : VoicePacket -> Bytes.
Variable frameLength : Z.

(** *** The scan of the receivers *)

Lemma foldr_max_init (l : list Z) d x :
  foldr Z.max (Z.max d x) l = Z.max x (foldr Z.max d l).
Proof. induction l as [|y l IH]; simpl; [lia|]. rewrite IH. lia. Qed.

Lemma scan_from rs w : forall b d,
  foldl (scan_step w) (b, d) rs
  = (b || any_receiving rs w,
     foldr Z.max d
       (deadline <$> List.filter (fun r => isReceivingTransmission r w) rs)).
Proof.
  induction rs as [|r rs IH]; intros b d; simpl.
  - by rewrite orb_false_r.
  - destruct (isReceivingTransmission r w) eqn:Hr; simpl.
    + rewrite IH. f_equal; [by rewrite orb_true_r|].
      change (list_fmap receiver Z deadline) with (fmap (M:=list) deadline).
      rewrite <- foldr_max_init. f_equal.
      destruct (d <? deadline r) eqn:Hlt;
        [apply Z.ltb_lt in Hlt|apply Z.ltb_ge in Hlt]; lia.
    + by rewrite IH.
Qed.

Lemma scan_spec rs w : scan rs w = (any_receiving rs w, latest_deadline rs w).
Proof. unfold scan. by rewrite scan_from. Qed.

(** Go visits the entries of a map in no fixed order: the outcome of the
    scan does not depend on it. *)
Lemma existsb_permutation {A} (f : A -> bool) l l' :
  l ≡ₚ l' -> existsb f l = existsb f l'.
Proof.
  induction 1 as [|x l l' _ IH|x y l|l l' l'' _ IH1 _ IH2]; simpl;
    try congruence.
  by destruct (f x), (f y).
Qed.

Lemma filter_permutation {A} (f : A -> bool) l l' :
  l ≡ₚ l' -> List.filter f l ≡ₚ List.filter f l'.
Proof.
  induction 1 as [|x l l' _ IH|x y l|l l' l'' _ IH1 _ IH2]; simpl; try done.
  - destruct (f x); by rewrite ?IH.
  - destruct (f x), (f y); try done. apply perm_swap.
  - by etrans.
Qed.

Lemma foldr_max_permutation (l l' : list Z) d :
  l ≡ₚ l' -> foldr Z.max d l = foldr Z.max d l'.
Proof. induction 1; simpl; lia. Qed.

Lemma scan_permutation rs rs' w : rs ≡ₚ rs' -> scan rs w = scan rs' w.
Proof.
  intros Hp. rewrite !scan_spec. unfold any_receiving, latest_deadline.
  f_equal; [by apply existsb_permutation|].
  apply foldr_max_permutation, fmap_Permutation.
  by apply filter_permutation.
Qed.

Lemma latest_deadline_ge_now rs w : time_Now w <= latest_deadline rs w.
Proof.
  unfold latest_deadline.
  induction (List.filter _ rs) as [|r l IH]; [simpl; lia|].
  rewrite fmap_cons. simpl. lia.
Qed.


Lemma latest_deadline_attained rs w :
  any_receiving rs w = true ->
  exists r, In r rs /\ isReceivingTransmission r w = true
            /\ latest_deadline rs w = deadline r.
Proof.
  unfold any_receiving, latest_deadline. intros Hany.
  apply existsb_exists in Hany as (r0 & Hin0 & Hr0).
  assert (In r0 (List.filter (fun r => isReceivingTransmission r w) rs)) as Hf
    by (apply List.filter_In; done).
  assert (forall r, In r (List.filter (fun r => isReceivingTransmission r w) rs)
                    -> In r rs /\ time_Now w < deadline r) as Hall.
  { intros r Hr. apply List.filter_In in Hr as [? Hr]. split; [done|].
    by apply Z.ltb_lt in Hr. }
  assert (List.filter (fun r => isReceivingTransmission r w) rs <> []) as Hne
    by (intros Hnil; rewrite Hnil in Hf; done).
  clear Hin0 Hr0 Hf.
  induction (List.filter _ rs) as [|r' l IH]; [done|].
  rewrite fmap_cons. simpl.
  destruct (Hall r' (or_introl eq_refl)) as [Hin' Hlt'].
  destruct l as [|r'' l].
  - exists r'. repeat split; [done|by apply Z.ltb_lt|simpl; lia].
  - destruct IH as (r & Hin & Hr & Hmax).
    + intros; apply Hall; by right.
    + done.
    + destruct (Z.le_ge_cases (deadline r') (deadline r)) as [Hle|Hge].
      * exists r. repeat split; [done|done|]. lia.
      * exists r'. repeat split; [done|by apply Z.ltb_lt|]. lia.
Qed.

Lemma any_receiving_false rs w :
  any_receiving rs w = false <->
  forall r, In r rs -> deadline r <= time_Now w.
Proof.
  unfold any_receiving. split.
  - intros Hany r Hin.
    destruct (isReceivingTransmission r w) eqn:Hr.
    + assert (existsb (fun r => isReceivingTransmission r w) rs = true)
        by (apply existsb_exists; eauto). congruence.
    + by apply Z.ltb_ge in Hr.
  - intros Hall. apply not_true_is_false. intros Hex.
    apply existsb_exists in Hex as (r & Hin & Hr).
    apply Z.ltb_lt in Hr. specialize (Hall r Hin). lia.
Qed.

(** *** The clear-channel wait *)

Lemma waitForClearChannel_step fuel c w :
  waitForClearChannel (S fuel) c w
  = if any_receiving (receivers_now c w) w
    then waitForClearChannel fuel c
           (time_Sleep (latest_deadline (receivers_now c w) w - clock w
                        + 250 * Millisecond)
              (log LInfo
                 "delaying outgoing transmission to avoid interrupting incoming transmission"
                 w))
    else Done w.
Proof. simpl. by rewrite scan_spec. Qed.

Lemma waitForClearChannel_mute b fuel : forall c w,
  waitForClearChannel fuel (set_mute b c) w = waitForClearChannel fuel c w.
Proof.
  induction fuel as [|fuel IH]; intros c w; [done|].
  rewrite !waitForClearChannel_step.
  replace (receivers_now (set_mute b c) w) with (receivers_now c w) by done.
  destruct (any_receiving _ _); [apply IH|done].
Qed.

Lemma waitForClearChannel_extends fuel : forall c w,
  extends w (world_of (waitForClearChannel fuel c w))
  /\ writes (world_of (waitForClearChannel fuel c w)) = writes w
  /\ clock w <= clock (world_of (waitForClearChannel fuel c w)).
Proof.
  induction fuel as [|fuel IH]; intros c w.
  - simpl. split; [apply extends_refl|]. split; [done|lia].
  - rewrite waitForClearChannel_step.
    destruct (any_receiving _ _); [|simpl; split; [apply extends_refl|split; [done|lia]]].
    match goal with |- context [waitForClearChannel fuel c ?w1] =>
      destruct (IH c w1) as (He & Hw & Hc); set (w' := w1) in * end.
    assert (extends w w') as He'.
    { eapply extends_trans; [apply extends_log|apply time_Sleep_extends]. }
    split; [by eapply extends_trans|]. split.
    + rewrite Hw. unfold w', writes.
      rewrite time_Sleep_trace. simpl. rewrite !List.filter_app. simpl.
      by rewrite !app_nil_r.
    + pose proof (time_Sleep_clock
                    (latest_deadline (receivers_now c w) w - clock w
                     + 250 * Millisecond)
                    (log LInfo
                       "delaying outgoing transmission to avoid interrupting incoming transmission"
                       w)) as [Hs _].
      rewrite clock_log in Hs. subst w'. by etrans.
Qed.

(** When the wait is done, the last scan found no receiver receiving. *)
Lemma waitForClearChannel_done fuel : forall c w w1,
  waitForClearChannel fuel c w = Done w1 ->
  any_receiving (receivers_now c w1) w1 = false.
Proof.
  induction fuel as [|fuel IH]; intros c w w1; [done|].
  rewrite waitForClearChannel_step.
  destruct (any_receiving _ _) eqn:Hany; [apply IH|].
  by intros [= <-].
Qed.

(** *** Writing the packets of a batch *)

Lemma next_write_err_Sleep d w :
  next_write_err (time_Sleep d w) = next_write_err w.
Proof. unfold next_write_err. by rewrite time_Sleep_write_errs. Qed.

Lemma delay_nominal startTime i w :
  time_Until (startTime + i * frameLength + Z.quot (- frameLength) 2) w
  = nominal_time frameLength startTime i - clock w.
Proof.
  unfold time_Until, nominal_time. rewrite Z.quot_opp_l by done. lia.
Qed.

(** One turn of the loop: a sleep aimed at the nominal time of the packet,
    then the write, then the error line if the write failed. *)
Lemma writePacket_spec startTime i vp w :
  let we := elapse w in
  let d := nominal_time frameLength startTime i - clock we in
  let ws := time_Sleep d we in
  let w' := writePacket VoicePacket Encode frameLength startTime i vp w in
  trace w'
  = trace w
    ++ [EvSleep (clock we) d; EvWrite (clock ws) (Encode vp) (next_write_err w)]
    ++ match next_write_err w with
       | Some _ => [EvLog LError "failed to transmit voice packet"]
       | None => []
       end
  /\ clock ws <= clock w'
  /\ (lapses w = [] ->
      clock ws = clock w + Z.max 0 d /\ clock w' = clock ws /\ lapses w' = []).
Proof.
  cbv zeta. unfold writePacket. rewrite delay_nominal.
  set (we := elapse w).
  set (d := nominal_time frameLength startTime i - clock we).
  set (ws := time_Sleep d we).
  pose proof (conn_Write_trace (Encode vp) ws) as Ht.
  pose proof (conn_Write_result (Encode vp) ws) as Hr.
  pose proof (conn_Write_clock (Encode vp) ws) as Hc.
  pose proof (conn_Write_quiet (Encode vp) ws) as Hq.
  assert (next_write_err ws = next_write_err w) as Hn.
  { unfold ws, we. by rewrite next_write_err_Sleep, next_write_err_elapse. }
  assert (trace ws = trace w ++ [EvSleep (clock we) d]) as Hs.
  { unfold ws. rewrite time_Sleep_trace. unfold we. by rewrite trace_elapse. }
  rewrite Hn in *.
  destruct (conn_Write (Encode vp) ws) as [r w1]. simpl in *. subst r.
  assert (lapses w = [] ->
          clock ws = clock w + Z.max 0 d /\ clock w1 = clock ws
          /\ lapses w1 = []) as Hquiet.
  { intros Hl. assert (we = w) as Hwe by (by apply elapse_quiet).
    destruct (time_Sleep_quiet d we) as [Hc1 Hl1]; [by rewrite Hwe|].
    fold ws in Hc1, Hl1. destruct (Hq Hl1) as [Hc2 Hl2].
    rewrite Hwe in Hc1. done. }
  destruct (next_write_err w) as [e|]; simpl.
  - rewrite Ht, Hs, <- !app_assoc. simpl. split; [done|]. split; [exact Hc|exact Hquiet].
  - rewrite Ht, Hs, <- !app_assoc. simpl. split; [done|]. split; [exact Hc|exact Hquiet].
Qed.

Lemma writePacket_events startTime i vp w :
  let we := elapse w in
  let d := nominal_time frameLength startTime i - clock we in
  let ws := time_Sleep d we in
  let w' := writePacket VoicePacket Encode frameLength startTime i vp w in
  extends w w'
  /\ write_times (new_events w w') = [clock ws]
  /\ sleeps (new_events w w') = [(clock we, d)].
Proof.
  cbv zeta. destruct (writePacket_spec startTime i vp w) as (Ht & _ & _).
  split; [by eexists|]. rewrite (new_events_app _ _ _ Ht).
  by destruct (next_write_err w).
Qed.

Lemma writePackets_loop_extends startTime packets : forall i w,
  extends w (writePackets_loop VoicePacket Encode frameLength startTime i packets w).
Proof.
  induction packets as [|vp rest IH]; intros i w; simpl; [apply extends_refl|].
  eapply extends_trans; [|apply IH].
  apply (writePacket_events startTime i vp w).
Qed.

Lemma writePackets_loop_new startTime vp rest i w :
  let w1 := writePacket VoicePacket Encode frameLength startTime i vp w in
  let w' := writePackets_loop VoicePacket Encode frameLength startTime (i + 1)
              rest w1 in
  new_events w w' = new_events w w1 ++ new_events w1 w'.
Proof.
  cbv zeta. apply new_events_trans.
  - apply (writePacket_events startTime i vp w).
  - apply writePackets_loop_extends.
Qed.

(** Whatever the scheduler does: every packet is written, not before the
    instant it is paced to, and every sleep is aimed at that instant. *)
Lemma writePackets_loop_general startTime packets : forall i w,
  let w' := writePackets_loop VoicePacket Encode frameLength startTime i
              packets w in
  clock w <= clock w'
  /\ length (write_times (new_events w w')) = length packets
  /\ (forall (k : nat) t,
        write_times (new_events w w') !! k = Some t ->
        clock w <= t /\ nominal_time frameLength startTime (i + Z.of_nat k) <= t)
  /\ (forall (k : nat) at_ d,
        sleeps (new_events w w') !! k = Some (at_, d) ->
        at_ + d = nominal_time frameLength startTime (i + Z.of_nat k)).
Proof.
  induction packets as [|vp rest IH]; intros i w; cbv zeta.
  - simpl. unfold new_events. rewrite drop_all. simpl.
    split; [lia|]. split; [done|]. split; intros k ?; by rewrite ?lookup_nil.
  - simpl writePackets_loop. rewrite writePackets_loop_new.
    set (w1 := writePacket VoicePacket Encode frameLength startTime i vp w).
    destruct (IH (i + 1) w1) as (Hc & Hlen & Hw & Hs).
    pose proof (writePacket_events startTime i vp w) as Hev.
    pose proof (writePacket_spec startTime i vp w) as Hsp.
    cbv zeta in Hev, Hsp.
    destruct Hev as (_ & Hwt & Hsl). destruct Hsp as (_ & Hc1 & _).
    fold w1 in Hwt, Hsl, Hc1. clearbody w1.
    pose proof (elapse_clock w) as He.
    destruct (time_Sleep_clock
                (nominal_time frameLength startTime i - clock (elapse w))
                (elapse w)) as [Hs1 Hs2].
    unfold write_times, sleeps in *. rewrite !omap_app, Hwt, Hsl.
    split; [lia|]. split; [simpl; by rewrite Hlen|].
    split.
    + intros [|k] t Hk; simpl in Hk.
      * injection Hk as <-. rewrite Z.add_0_r. lia.
      * destruct (Hw k t Hk) as [H1 H2]. rewrite Nat2Z.inj_succ.
        replace (i + Z.succ (Z.of_nat k)) with (i + 1 + Z.of_nat k) by lia.
        split; [lia|exact H2].
    + intros [|k] at_ d Hk; simpl in Hk.
      * injection Hk as <- <-. rewrite Z.add_0_r. lia.
      * rewrite (Hs k at_ d Hk), Nat2Z.inj_succ. f_equal. lia.
Qed.

Hypothesis frame_pos : 0 < frameLength.

Lemma half_frame :
  0 <= Z.quot frameLength 2 /\ 2 * Z.quot frameLength 2 <= frameLength.
Proof.
  rewrite Z.quot_div_nonneg by lia.
  split; [apply Z.div_pos; lia|]. apply Z.mul_div_le. lia.
Qed.

Lemma nominal_time_mono startTime i :
  nominal_time frameLength startTime i
  <= nominal_time frameLength startTime (i + 1).
Proof. unfold nominal_time. lia. Qed.

(** With no scheduler lapse, and from the second packet on: a packet is
    written at the very instant it is paced to. *)
Lemma writePackets_loop_nominal startTime packets : forall i w,
  lapses w = [] ->
  clock w <= nominal_time frameLength startTime i ->
  let w' := writePackets_loop VoicePacket Encode frameLength startTime i
              packets w in
  forall (k : nat) t,
    write_times (new_events w w') !! k = Some t ->
    t = nominal_time frameLength startTime (i + Z.of_nat k).
Proof.
  induction packets as [|vp rest IH]; intros i w Hq Hle; cbv zeta.
  - simpl. unfold new_events. rewrite drop_all. simpl.
    intros k t Hk. by rewrite lookup_nil in Hk.
  - simpl writePackets_loop. rewrite writePackets_loop_new.
    set (w1 := writePacket VoicePacket Encode frameLength startTime i vp w).
    pose proof (writePacket_events startTime i vp w) as Hev.
    pose proof (writePacket_spec startTime i vp w) as Hsp.
    cbv zeta in Hev, Hsp.
    destruct Hev as (_ & Hwt & _). destruct Hsp as (_ & _ & Hn).
    destruct (Hn Hq) as (Hc1 & Hc2 & Hq1). fold w1 in Hwt, Hc2, Hq1.
    clearbody w1.
    rewrite (elapse_quiet w Hq) in *.
    unfold write_times in *. rewrite omap_app, Hwt.
    intros [|k] t Hk; simpl in Hk.
    + injection Hk as <-. rewrite Z.add_0_r. lia.
    + rewrite Nat2Z.inj_succ.
      replace (i + Z.succ (Z.of_nat k)) with (i + 1 + Z.of_nat k) by lia.
      apply (IH (i + 1) w1 Hq1); [|exact Hk].
      pose proof (nominal_time_mono startTime i). lia.
Qed.

(** The first packet: its sleep is aimed at an instant that is already
    past, and returns at once. *)
Lemma first_packet startTime vp w :
  startTime <= clock w ->
  let we := elapse w in
  let d := startTime - Z.quot frameLength 2 - clock we in
  let w1 := writePacket VoicePacket Encode frameLength startTime 0 vp w in
  d <= 0
  /\ time_Sleep d we = emit (EvSleep (clock we) d) we
  /\ trace w1
     = trace w
       ++ [EvSleep (clock we) d; EvWrite (clock we) (Encode vp) (next_write_err w)]
       ++ match next_write_err w with
          | Some _ => [EvLog LError "failed to transmit voice packet"]
          | None => []
          end
  /\ (lapses w = [] -> clock w1 = clock w /\ lapses w1 = []).
Proof.
  intros Hst. cbv zeta.
  pose proof (writePacket_spec startTime 0 vp w) as Hsp. cbv zeta in Hsp.
  pose proof half_frame as [Hh _]. pose proof (elapse_clock w) as He.
  replace (nominal_time frameLength startTime 0 - clock (elapse w))
    with (startTime - Z.quot frameLength 2 - clock (elapse w)) in Hsp
    by (unfold nominal_time; lia).
  set (d := startTime - Z.quot frameLength 2 - clock (elapse w)) in *.
  assert (d <= 0) as Hd by (unfold d; lia).
  rewrite (time_Sleep_nonpos d (elapse w) Hd) in Hsp.
  destruct Hsp as (Ht & _ & Hq).
  split; [done|]. split; [by apply time_Sleep_nonpos|]. split; [exact Ht|].
  intros Hl. destruct (Hq Hl) as (Hc1 & Hc2 & Hl1).
  simpl in Hc1, Hc2. rewrite (elapse_quiet w Hl) in *. split; [lia|done].
Qed.

(** C9. The sleep before the first packet of a batch is computed as
    [startTime - frameLength/2 - now]; it is never positive at that
    moment, the sleep returns at once, and the packet is written at the
    instant [now] at which the duration was computed. *)
Theorem first_packet_written_immediately (vp : VoicePacket)
  (rest : list VoicePacket) (w : World) :
  let startTime := time_Now w in
  let we := elapse w in
  let now := time_Now we in
  let d := startTime - Z.quot frameLength 2 - now in
  d <= 0
  /\ startTime <= now
  /\ time_Sleep d we = emit (EvSleep now d) we
  /\ exists evs,
       trace (writePackets VoicePacket Encode frameLength (vp :: rest) w)
       = trace w
         ++ EvSleep now d :: EvWrite now (Encode vp) (next_write_err w) :: evs.
Proof.
  cbv zeta. unfold time_Now.
  destruct (first_packet (clock w) vp w) as (Hd & Hs & Ht & _); [lia|].
  split; [done|]. split; [apply elapse_clock|]. split; [done|].
  unfold writePackets. simpl writePackets_loop. unfold time_Now.
  destruct (writePackets_loop_extends (clock w) rest (0 + 1)
              (writePacket VoicePacket Encode frameLength (clock w) 0 vp w))
    as [evs Hevs].
  rewrite Hevs, Ht. eexists. rewrite <- !app_assoc. simpl. reflexivity.
Qed.

(** The sleep and the write of one packet, side by side: the sleep is
    requested at or after the start of the loop; the write follows it, not
    before the requested duration has passed, and at the very instant of
    the request when that duration is not positive. *)
Lemma writePackets_loop_paired startTime packets : forall i w,
  let w' := writePackets_loop VoicePacket Encode frameLength startTime i
              packets w in
  forall (k : nat) at_ d,
    sleeps (new_events w w') !! k = Some (at_, d) ->
    clock w <= at_
    /\ forall t, write_times (new_events w w') !! k = Some t ->
         at_ + Z.max 0 d <= t /\ (d <= 0 -> t = at_).
Proof.
  induction packets as [|vp rest IH]; intros i w; cbv zeta.
  - simpl. unfold new_events. rewrite drop_all. simpl.
    intros k ? ? Hk. by rewrite lookup_nil in Hk.
  - simpl writePackets_loop. rewrite writePackets_loop_new.
    set (w1 := writePacket VoicePacket Encode frameLength startTime i vp w).
    pose proof (IH (i + 1) w1) as IH1. cbv zeta in IH1.
    pose proof (writePacket_events startTime i vp w) as Hev.
    pose proof (writePacket_spec startTime i vp w) as Hsp.
    cbv zeta in Hev, Hsp.
    destruct Hev as (_ & Hwt & Hsl). destruct Hsp as (_ & Hc1 & _).
    fold w1 in Hwt, Hsl, Hc1, IH1. clearbody w1.
    pose proof (elapse_clock w) as He.
    set (d0 := nominal_time frameLength startTime i - clock (elapse w)) in *.
    destruct (time_Sleep_clock d0 (elapse w)) as [Hs1 Hs2].
    unfold write_times, sleeps in *. rewrite !omap_app, Hwt, Hsl.
    intros [|k] at_ d Hk; simpl in Hk.
    + injection Hk as <- <-. split; [exact He|].
      intros t Ht. simpl in Ht. injection Ht as <-. split; [lia|].
      intros Hd. by rewrite (time_Sleep_nonpos d0 (elapse w) Hd).
    + destruct (IH1 k at_ d Hk) as [Hat Hrest]. split; [lia|].
      intros t Ht. simpl in Ht. exact (Hrest t Ht).
Qed.

(** C7, as the code has it.  In a batch started at [startTime], the sleep
    before every packet [i] is aimed at [startTime + i*frameLength -
    frameLength/2]; every packet is written, never before that instant
    nor before [startTime]; with no scheduler lapse packet 0 is written at
    [startTime] and every later packet [i] exactly at [startTime +
    i*frameLength - frameLength/2]; and the last of [n] packets is written
    at least [(n-1) * (frameLength/2)] after [startTime].  Whatever the
    scheduler does, a packet whose instant is already past when its sleep
    is requested is written at the instant of the request, which is always
    so for packet 0; any other packet is written once the requested
    duration has passed, at the earliest. *)
Theorem writePackets_pacing (packets : list VoicePacket) (w : World) :
  let startTime := time_Now w in
  let w' := writePackets VoicePacket Encode frameLength packets w in
  let n := Z.of_nat (length packets) in
  (forall (i : nat) at_ d,
     sleeps (new_events w w') !! i = Some (at_, d) ->
     at_ + d = nominal_time frameLength startTime (Z.of_nat i))
  /\ length (write_times (new_events w w')) = length packets
  /\ (forall (i : nat) t,
        write_times (new_events w w') !! i = Some t ->
        startTime <= t
        /\ nominal_time frameLength startTime (Z.of_nat i) <= t)
  /\ (lapses w = [] ->
      forall (i : nat) t,
        write_times (new_events w w') !! i = Some t ->
        t = match i with
            | O => startTime
            | S _ => nominal_time frameLength startTime (Z.of_nat i)
            end)
  /\ (forall t,
        last (write_times (new_events w w')) = Some t ->
        (n - 1) * Z.quot frameLength 2 <= t - startTime)
  /\ (forall (i : nat) at_ d t,
        sleeps (new_events w w') !! i = Some (at_, d) ->
        write_times (new_events w w') !! i = Some t ->
        startTime <= at_ /\ at_ + Z.max 0 d <= t /\ (d <= 0 -> t = at_))
  /\ (forall at_ d,
        sleeps (new_events w w') !! 0%nat = Some (at_, d) -> d <= 0).
Proof.
  cbv zeta. unfold writePackets, time_Now.
  pose proof (writePackets_loop_general (clock w) packets 0 w) as Hg.
  pose proof (writePackets_loop_paired (clock w) packets 0 w) as Hp.
  cbv zeta in Hg, Hp. destruct Hg as (_ & Hlen & Hw & Hs).
  split; [exact Hs|]. split; [exact Hlen|]. split; [exact Hw|].
  split; [|split; [|split]].
  - intros Hq. destruct packets as [|vp rest].
    { simpl. unfold new_events. rewrite drop_all. simpl.
      intros i t Hi. by rewrite lookup_nil in Hi. }
    simpl writePackets_loop. rewrite writePackets_loop_new.
    pose proof (writePacket_events (clock w) 0 vp w) as Hev.
    cbv zeta in Hev. destruct Hev as (_ & Hwt & _).
    destruct (first_packet (clock w) vp w) as (Hd & Hsl & _ & Hc); [lia|].
    destruct (Hc Hq) as [Hc1 Hq1].
    unfold write_times in *. rewrite omap_app, Hwt.
    replace (nominal_time frameLength (clock w) 0 - clock (elapse w))
      with (clock w - Z.quot frameLength 2 - clock (elapse w))
      by (unfold nominal_time; lia).
    rewrite Hsl. simpl clock. rewrite (elapse_quiet w Hq).
    intros [|k] t Hk; simpl in Hk.
    + by injection Hk as <-.
    + rewrite Nat2Z.inj_succ.
      replace (Z.succ (Z.of_nat k)) with (0 + 1 + Z.of_nat k) by lia.
      eapply (writePackets_loop_nominal (clock w) rest (0 + 1)); [exact Hq1| |exact Hk].
      rewrite Hc1. pose proof half_frame. unfold nominal_time. lia.
  - intros t Ht. rewrite last_lookup, Hlen in Ht.
    destruct (Hw _ _ Ht) as [H1 H2].
    pose proof half_frame as [Hh1 Hh2].
    unfold nominal_time in H2.
    destruct packets as [|vp rest].
    { apply lookup_lt_Some in Ht. rewrite Hlen in Ht. simpl in Ht. lia. }
    simpl length in *. simpl pred in H2.
    destruct rest as [|vp' rest]; simpl length in *; [simpl; lia|].
    rewrite !Nat2Z.inj_succ in *. nia.
  - intros i at_ d t Hi Ht. destruct (Hp i at_ d Hi) as [Hat Hrest].
    destruct (Hrest t Ht) as [H1 H2]. done.
  - intros at_ d H0. destruct (Hp 0%nat at_ d H0) as [Hat _].
    pose proof (Hs 0%nat at_ d H0) as Haim.
    pose proof half_frame as [Hh _]. unfold nominal_time in Haim.
    simpl Z.of_nat in Haim. lia.
Qed.

(** *** The transmission of a batch *)

Lemma In_write_times evs t b r :
  In (EvWrite t b r) evs -> exists k : nat, write_times evs !! k = Some t.
Proof.
  intros Hin. apply list_elem_of_lookup. unfold write_times.
  apply list_elem_of_omap. exists (EvWrite t b r).
  split; [by apply list_elem_of_In|done].
Qed.

Lemma no_writes_In evs t b r :
  List.filter is_write evs = [] -> ~ In (EvWrite t b r) evs.
Proof.
  intros Hf Hin.
  assert (In (EvWrite t b r) (List.filter is_write evs)) as H
    by (by apply List.filter_In).
  by rewrite Hf in H.
Qed.

Lemma waitForClearChannel_no_writes fuel c w :
  List.filter is_write (new_events w (world_of (waitForClearChannel fuel c w)))
  = [].
Proof.
  destruct (waitForClearChannel_extends fuel c w) as (He & Hw & _).
  rewrite (writes_new_events _ _ He) in Hw.
  rewrite <- (app_nil_r (writes w)) in Hw at 2.
  by apply app_inv_head in Hw.
Qed.

Lemma writePackets_extends packets w :
  extends w (writePackets VoicePacket Encode frameLength packets w).
Proof. apply writePackets_loop_extends. Qed.

Lemma writePackets_write_times packets w t b r :
  In (EvWrite t b r)
     (new_events w (writePackets VoicePacket Encode frameLength packets w)) ->
  clock w <= t.
Proof.
  intros Hin. apply In_write_times in Hin as [k Hk].
  pose proof (writePackets_loop_general (clock w) packets 0 w) as Hg.
  cbv zeta in Hg. destruct Hg as (_ & _ & Hw & _).
  by destruct (Hw k t Hk).
Qed.

Lemma receivers_now_In c w cell k :
  receivers c !! k = Some cell -> In (cell (clock w)) (receivers_now c w).
Proof.
  intros Hk. unfold receivers_now. apply list_elem_of_In.
  apply list_elem_of_fmap. exists (k, cell). split; [done|].
  by apply elem_of_map_to_list.
Qed.


Lemma any_receiving_clear c w :
  any_receiving (receivers_now c w) w = false -> clear_at c (clock w).
Proof.
  intros Hany k cell Hk.
  apply (proj1 (any_receiving_false _ _) Hany).
  by apply receivers_now_In with k.
Qed.


(** Where the wait sleeps to: the latest deadline plus 250 ms, or later. *)
Lemma wait_sleep_until rs w :
  let w2 :=
    time_Sleep (latest_deadline rs w - clock w + 250 * Millisecond)
      (log LInfo
         "delaying outgoing transmission to avoid interrupting incoming transmission"
         w) in
  latest_deadline rs w + 250 * Millisecond <= clock w2
  /\ (lapses w = [] -> clock w2 = latest_deadline rs w + 250 * Millisecond).
Proof.
  cbv zeta.
  match goal with |- context [time_Sleep ?d ?w1] =>
    destruct (time_Sleep_clock d w1) as [H1 H2];
    pose proof (time_Sleep_quiet d w1) as Hq end.
  rewrite clock_log in *. split; [lia|].
  intros Hl. destruct (Hq Hl) as [Hc _]. rewrite Hc.
  pose proof (latest_deadline_ge_now rs w) as Hge.
  unfold time_Now, Millisecond in *. lia.
Qed.


Lemma tx_Done fuel c packets w w' :
  tx VoicePacket Encode frameLength fuel c packets w = Done w' ->
  exists w1,
    waitForClearChannel fuel c (emit EvLock w) = Done w1
    /\ clear_at c (clock w1)
    /\ writes w1 = writes w
    /\ extends w w'
    /\ forall t b r, In (EvWrite t b r) (new_events w w') -> clock w1 <= t.
Proof.
  unfold tx.
  destruct (waitForClearChannel fuel c (emit EvLock w)) as [w1|w1] eqn:Hwait;
    [|done].
  intros [= <-]. exists w1. split; [done|].
  pose proof (waitForClearChannel_done _ _ _ _ Hwait) as Hclear.
  destruct (waitForClearChannel_extends fuel c (emit EvLock w))
    as (He & Hw & _).
  pose proof (waitForClearChannel_no_writes fuel c (emit EvLock w)) as Hnw.
  rewrite Hwait in He, Hw, Hnw. simpl in He, Hw, Hnw.
  split; [by apply any_receiving_clear|].
  assert (writes (emit EvLock w) = writes w) as Hwl.
  { unfold writes. simpl. rewrite List.filter_app. simpl. apply app_nil_r. }
  split; [by rewrite Hw|].
  set (wp := if negb (mute c)
             then writePackets VoicePacket Encode frameLength packets w1
             else w1).
  assert (extends w1 wp) as Hep.
  { unfold wp. destruct (negb (mute c));
      [apply writePackets_extends|apply extends_refl]. }
  assert (extends w (emit EvLock w)) as Hel by apply extends_emit.
  assert (extends wp (emit EvUnlock wp)) as Heu by apply extends_emit.
  split.
  { eapply extends_trans; [exact Hel|]. eapply extends_trans; [exact He|].
    by eapply extends_trans. }
  intros t b r Hin.
  rewrite (new_events_trans w (emit EvLock w) (emit EvUnlock wp)) in Hin;
    [|done|by eapply extends_trans; [|eapply extends_trans]].
  rewrite (new_events_trans (emit EvLock w) w1 (emit EvUnlock wp)) in Hin;
    [|done|by eapply extends_trans].
  rewrite (new_events_trans w1 wp (emit EvUnlock wp)) in Hin; [|done|done].
  rewrite (new_events_app w (emit EvLock w) [EvLock]) in Hin by done.
  rewrite (new_events_app wp (emit EvUnlock wp) [EvUnlock]) in Hin by done.
  rewrite !in_app_iff in Hin.
  destruct Hin as [Hin|[Hin|[Hin|Hin]]].
  - by destruct Hin.
  - by apply no_writes_In in Hin.
  - unfold wp in Hin. destruct (negb (mute c)).
    + by apply writePackets_write_times in Hin.
    + unfold new_events in Hin. rewrite drop_all in Hin. done.
  - by destruct Hin.
Qed.


(** C8. A muted client drops the batch after taking the busy lock and
    after the clear-channel wait: up to the end of the wait the muted and
    the unmuted transmission are the same; then the muted one releases the
    lock having written nothing, where the unmuted one writes the packets
    first. *)
Theorem tx_mute_drops_after_wait (fuel : nat) (c : audioClient)
  (packets : list VoicePacket) (w : World) :
  let muted := tx VoicePacket Encode frameLength fuel (set_mute true c)
                 packets w in
  let unmuted := tx VoicePacket Encode frameLength fuel (set_mute false c)
                   packets w in
  match waitForClearChannel fuel c (emit EvLock w) with
  | Done w1 =>
      let wp := writePackets VoicePacket Encode frameLength packets w1 in
      muted = Done (emit EvUnlock w1)
      /\ unmuted = Done (emit EvUnlock wp)
      /\ (exists waiting,
            trace w1 = trace w ++ EvLock :: waiting
            /\ List.filter is_write waiting = []
            /\ trace (world_of muted) = trace w ++ EvLock :: waiting ++ [EvUnlock]
            /\ trace (world_of unmuted)
               = trace w ++ EvLock :: waiting ++ new_events w1 wp ++ [EvUnlock])
      /\ writes (world_of muted) = writes w
      /\ clock (world_of muted) = clock w1
  | Spinning w1 => muted = Spinning w1 /\ unmuted = Spinning w1
  end.
Proof.
  cbv zeta. unfold tx. rewrite !waitForClearChannel_mute.
  destruct (waitForClearChannel_extends fuel c (emit EvLock w))
    as (He & Hw & _).
  pose proof (waitForClearChannel_no_writes fuel c (emit EvLock w)) as Hnw.
  destruct (waitForClearChannel fuel c (emit EvLock w)) as [w1|w1]; [|done].
  simpl in *. split; [done|]. split; [done|].
  pose proof (extends_new_events _ _ He) as Ht. simpl in Ht.
  pose proof (extends_new_events _ _ (writePackets_extends packets w1)) as Hp.
  split.
  - exists (new_events (emit EvLock w) w1).
    rewrite Hp, Ht, <- !app_assoc. simpl. done.
  - split; [|done]. unfold writes in *. simpl.
    rewrite List.filter_app, Hw. simpl.
    rewrite List.filter_app. simpl. by rewrite !app_nil_r.
Qed.

Lemma Run_outcome fuel c inputs w :
  let r := Run VoicePacket Encode frameLength fuel c inputs w in
  r.1 = if ctx_canceled VoicePacket inputs then Returned None else Blocked.
Proof.
  cbv zeta. unfold Run.
  destruct (ctx_canceled VoicePacket inputs); [|done].
  by destruct (close _) as [[e|] w1].
Qed.

(** C5, as the code has it.  A failed write of a voice packet is logged
    at error level and the transmitter goes on with the next packet: every
    packet of the batch is written whatever the earlier writes returned.
    The failure is not surfaced: [Run] never returns an error.  [Run]
    returns (nil) when, and only when, the context is canceled. *)
Theorem Run_logs_write_failures (fuel : nat) (c : audioClient)
  (inputs : list (Select VoicePacket)) (w : World) :
  let r := Run VoicePacket Encode frameLength fuel c inputs w in
  (forall e, r.1 <> Returned (Some e))
  /\ (r.1 = Returned None <-> ctx_canceled VoicePacket inputs = true)
  /\ (forall startTime i vp w0 e,
        next_write_err w0 = Some e ->
        exists at_ d t,
          trace (writePacket VoicePacket Encode frameLength startTime i vp w0)
          = trace w0 ++ [EvSleep at_ d; EvWrite t (Encode vp) (Some e);
                         EvLog LError "failed to transmit voice packet"])
  /\ (forall packets w0,
        length (write_times
                  (new_events w0
                     (writePackets VoicePacket Encode frameLength packets w0)))
        = length packets).
Proof.
  cbv zeta. rewrite Run_outcome.
  split; [|split; [|split]].
  - intros e. destruct (ctx_canceled VoicePacket inputs); discriminate.
  - destruct (ctx_canceled VoicePacket inputs); split; intros H; congruence.
  - intros startTime i vp w0 e He.
    pose proof (writePacket_spec startTime i vp w0) as Hsp.
    cbv zeta in Hsp. destruct Hsp as (Ht & _). rewrite He in Ht.
    eexists _, _, _. exact Ht.
  - intros packets w0.
    pose proof (writePackets_loop_general (clock w0) packets 0 w0) as Hg.
    cbv zeta in Hg. by destruct Hg as (_ & Hlen & _).
Qed.

(** *** What a transmission does, in order *)

Lemma trace_emit e w : trace (emit e w) = trace w ++ [e].
Proof. done. Qed.

Lemma writePacket_bytes startTime i vp w :
  let w' := writePacket VoicePacket Encode frameLength startTime i vp w in
  write_bytes (new_events w w') = [Encode vp]
  /\ Forall (fun e => is_log e || is_sleep e || is_write e = true)
            (new_events w w').
Proof.
  cbv zeta. pose proof (writePacket_spec startTime i vp w) as Hsp.
  cbv zeta in Hsp. destruct Hsp as (Ht & _ & _).
  rewrite (new_events_app _ _ _ Ht).
  destruct (next_write_err w); split; try done; by repeat constructor.
Qed.

Lemma writePackets_loop_bytes startTime packets : forall i w,
  let w' := writePackets_loop VoicePacket Encode frameLength startTime i
              packets w in
  write_bytes (new_events w w') = Encode <$> packets
  /\ Forall (fun e => is_log e || is_sleep e || is_write e = true)
            (new_events w w').
Proof.
  induction packets as [|vp rest IH]; intros i w; cbv zeta.
  - simpl. unfold new_events. rewrite drop_all. by split.
  - simpl writePackets_loop. rewrite writePackets_loop_new.
    pose proof (writePacket_bytes startTime i vp w) as H1. cbv zeta in H1.
    destruct H1 as [Hb1 Hf1].
    destruct (IH (i + 1)
                (writePacket VoicePacket Encode frameLength startTime i vp w))
      as [Hb2 Hf2].
    split.
    + unfold write_bytes in *. by rewrite omap_app, Hb1, Hb2.
    + by apply Forall_app.
Qed.

Lemma waitForClearChannel_events fuel : forall c w,
  Forall (fun e => is_log e || is_sleep e = true)
         (new_events w (world_of (waitForClearChannel fuel c w))).
Proof.
  induction fuel as [|fuel IH]; intros c w.
  - simpl. unfold new_events. by rewrite drop_all.
  - rewrite waitForClearChannel_step.
    destruct (any_receiving _ _);
      [|simpl; unfold new_events; by rewrite drop_all].
    match goal with |- context [waitForClearChannel fuel c ?w1] =>
      set (w2 := w1) end.
    assert (trace w2
            = trace w
              ++ [EvLog LInfo
                    "delaying outgoing transmission to avoid interrupting incoming transmission";
                  EvSleep (clock w)
                    (latest_deadline (receivers_now c w) w - clock w
                     + 250 * Millisecond)]) as Ht2.
    { unfold w2. rewrite time_Sleep_trace. simpl. by rewrite <- app_assoc. }
    destruct (waitForClearChannel_extends fuel c w2) as (He & _ & _).
    rewrite (new_events_trans w w2); [|by eexists|done].
    apply Forall_app. split; [|apply IH].
    rewrite (new_events_app _ _ _ Ht2). by repeat constructor.
Qed.

(** What [tx] adds to the trace when it returns: the lock, the wait, the
    packets unless muted, the unlock. *)
Lemma tx_events fuel c packets w w' :
  tx VoicePacket Encode frameLength fuel c packets w = Done w' ->
  exists w1 waiting sent,
    waitForClearChannel fuel c (emit EvLock w) = Done w1
    /\ new_events w w' = EvLock :: waiting ++ sent ++ [EvUnlock]
    /\ Forall (fun e => is_log e || is_sleep e = true) waiting
    /\ sent = (if mute c then []
               else new_events w1 (writePackets VoicePacket Encode frameLength
                                     packets w1)).
Proof.
  unfold tx.
  pose proof (waitForClearChannel_events fuel c (emit EvLock w)) as Hev.
  destruct (waitForClearChannel_extends fuel c (emit EvLock w)) as (He & _ & _).
  destruct (waitForClearChannel fuel c (emit EvLock w)) as [w1|w1]; [|done].
  intros [= <-]. simpl in Hev, He.
  exists w1, (new_events (emit EvLock w) w1),
    (if mute c then []
     else new_events w1 (writePackets VoicePacket Encode frameLength
                           packets w1)).
  split; [done|]. split; [|split; [exact Hev|done]].
  apply new_events_app.
  pose proof (extends_new_events _ _ He) as Ht1. rewrite trace_emit in Ht1.
  destruct (mute c); cbn [negb]; rewrite trace_emit.
  - rewrite Ht1. by rewrite <- !app_assoc.
  - rewrite (extends_new_events _ _ (writePackets_extends packets w1)), Ht1.
    by rewrite <- !app_assoc.
Qed.

Lemma omap_none {A B} (f : A -> option B) (P : A -> bool) l :
  (forall x, P x = true -> f x = None) ->
  Forall (fun x => P x = true) l -> omap f l = [].
Proof.
  intros Hf Hall. induction Hall as [|x l Hx _ IH]; simpl; [done|].
  by rewrite (Hf x Hx).
Qed.

(** X15. When [tx] returns, the packets of the batch have been handed to
    the connection one by one, each once, encoded, in the order of the
    batch, a failed write holding back none of the later ones; a muted
    client has handed over nothing. *)
Theorem tx_writes_batch_in_order (fuel : nat) (c : audioClient)
  (packets : list VoicePacket) (w w' : World) :
  tx VoicePacket Encode frameLength fuel c packets w = Done w' ->
  write_bytes (new_events w w')
  = if mute c then [] else Encode <$> packets.
Proof.
  intros Htx.
  destruct (tx_events _ _ _ _ _ Htx) as (w1 & waiting & sent & _ & -> & Hw & ->).
  unfold write_bytes. simpl. rewrite !omap_app. simpl.
  rewrite (omap_none _ (fun e => is_log e || is_sleep e) waiting); [|by intros []|done].
  rewrite app_nil_r. simpl. destruct (mute c); [done|].
  apply (writePackets_loop_bytes (clock w1) packets 0 w1).
Qed.

(** X16. [tx] writes only while it holds the busy lock, and gives the
    lock back exactly when it returns: what it adds to the trace is the
    taking of the lock, then sleeps, writes and log lines only, then the
    release; when it is still waiting for a clear channel, it has taken
    the lock, written nothing and not released it. *)
Theorem tx_lock_discipline (fuel : nat) (c : audioClient)
  (packets : list VoicePacket) (w : World) :
  match tx VoicePacket Encode frameLength fuel c packets w with
  | Done w' =>
      exists mid,
        new_events w w' = EvLock :: mid ++ [EvUnlock]
        /\ Forall (fun e => is_log e || is_sleep e || is_write e = true) mid
  | Spinning w' =>
      exists mid,
        new_events w w' = EvLock :: mid
        /\ Forall (fun e => is_log e || is_sleep e = true) mid
  end.
Proof.
  destruct (tx VoicePacket Encode frameLength fuel c packets w) as [w'|w']
    eqn:Htx.
  - destruct (tx_events _ _ _ _ _ Htx)
      as (w1 & waiting & sent & _ & -> & Hw & ->).
    exists (waiting ++ if mute c then []
                       else new_events w1
                              (writePackets VoicePacket Encode frameLength
                                 packets w1)).
    split; [by rewrite <- app_assoc|].
    apply Forall_app. split.
    + eapply Forall_impl; [exact Hw|]. intros e He. simpl in He.
      by rewrite He.
    + destruct (mute c); [done|].
      apply (writePackets_loop_bytes (clock w1) packets 0 w1).
  - unfold tx in Htx.
    pose proof (waitForClearChannel_events fuel c (emit EvLock w)) as Hev.
    destruct (waitForClearChannel_extends fuel c (emit EvLock w))
      as (He & _ & _).
    destruct (waitForClearChannel fuel c (emit EvLock w)) as [w1|w1]; [done|].
    injection Htx as <-. simpl in Hev, He.
    exists (new_events (emit EvLock w) w1). split; [|done].
    apply new_events_app.
    pose proof (extends_new_events _ _ He) as Ht1. rewrite trace_emit in Ht1.
    rewrite Ht1. by rewrite <- app_assoc.
Qed.

(** *** The transmitter loop *)

Lemma writes_emit_other e w :
  is_write e = false -> writes (emit e w) = writes w.
Proof.
  intros He. unfold writes. rewrite trace_emit, List.filter_app. simpl.
  rewrite He. apply app_nil_r.
Qed.

Lemma writes_time_Sleep d w : writes (time_Sleep d w) = writes w.
Proof.
  unfold writes. rewrite time_Sleep_trace, List.filter_app. apply app_nil_r.
Qed.

Lemma rand_IntN_range n w :
  0 < n ->
  0 <= (rand_IntN n w).1 < n
  /\ trace (rand_IntN n w).2 = trace w
  /\ clock (rand_IntN n w).2 = clock w
  /\ lapses (rand_IntN n w).2 = lapses w.
Proof.
  intros Hn. unfold rand_IntN. destruct (rands w) as [|r rs]; simpl.
  - repeat split; lia.
  - repeat split; try done; apply Z.mod_pos_bound; lia.
Qed.

Lemma tx_muted_writes fuel c packets w :
  mute c = true ->
  writes (world_of (tx VoicePacket Encode frameLength fuel c packets w))
  = writes w.
Proof.
  intros Hm. unfold tx. rewrite Hm.
  destruct (waitForClearChannel_extends fuel c (emit EvLock w))
    as (_ & Hw & _).
  rewrite (writes_emit_other EvLock) in Hw by done.
  destruct (waitForClearChannel fuel c (emit EvLock w)) as [w1|w1];
    simpl in *; [|done].
  by rewrite writes_emit_other.
Qed.

(** X17. The transmitter of a muted client never writes a voice packet:
    whatever batches the transmit loop receives and however long it runs,
    it adds no write to the connection.  (The pings that [sendPings] writes
    on the same connection are no part of the transmit loop.) *)
Theorem muted_never_writes (fuel : nat) (c : audioClient)
  (inputs : list (Select VoicePacket)) (w : World) :
  mute c = true ->
  writes (world_of (transmit VoicePacket Encode frameLength fuel c inputs w))
  = writes w.
Proof.
  intros Hm. revert w. induction inputs as [|i rest IH]; intros w; simpl;
    [done|].
  destruct i as [packets|]; [|simpl; by apply writes_emit_other].
  pose proof (tx_muted_writes fuel c packets w Hm) as Htx.
  destruct (tx VoicePacket Encode frameLength fuel c packets w) as [w1|w1];
    simpl in *; [|done].
  destruct (rand_IntN_range 500 w1) as (_ & Htr & _); [lia|].
  destruct (rand_IntN 500 w1) as [r w2]. simpl in Htr.
  rewrite IH. rewrite writes_time_Sleep. unfold writes.
  by rewrite Htr.
Qed.

(** X18. After every batch the transmitter pauses for at least 500 ms and
    less than 1000 ms before it receives again: the next thing it does
    after [tx] has returned is a sleep of such a duration, and the loop
    goes on no earlier than that much later. *)
Theorem transmit_pause (fuel : nat) (c : audioClient)
  (packets : list VoicePacket) (rest : list (Select VoicePacket))
  (w w1 : World) :
  tx VoicePacket Encode frameLength fuel c packets w = Done w1 ->
  exists d w2,
    500 * Millisecond <= d < 1000 * Millisecond
    /\ trace w2 = trace w1 ++ [EvSleep (clock w1) d]
    /\ clock w1 + d <= clock w2
    /\ transmit VoicePacket Encode frameLength fuel c
         (RecvPackets packets :: rest) w
       = transmit VoicePacket Encode frameLength fuel c rest w2.
Proof.
  intros Htx. simpl. rewrite Htx.
  destruct (rand_IntN_range 500 w1) as (Hr & Htr & Hcl & _); [lia|].
  destruct (rand_IntN 500 w1) as [r w1r]. simpl in *.
  exists ((500 + r) * Millisecond), (time_Sleep ((500 + r) * Millisecond) w1r).
  split; [unfold Millisecond; lia|].
  split; [by rewrite time_Sleep_trace, Htr, Hcl|].
  split; [|done].
  destruct (time_Sleep_clock ((500 + r) * Millisecond) w1r) as [_ H].
  by rewrite Hcl in H.
Qed.




(** *** How long the clear-channel wait lasts *)

Lemma bounded_receivers_now c horizon w r :
  bounded c horizon -> In r (receivers_now c w) -> deadline r <= horizon.
Proof.
  intros Hb Hin. unfold receivers_now in Hin.
  apply list_elem_of_In, list_elem_of_fmap in Hin as ([k cell] & -> & Hkc).
  apply elem_of_map_to_list in Hkc. simpl. by apply (Hb k cell).
Qed.

Lemma waitForClearChannel_bounded c horizon fuel : forall w,
  bounded c horizon ->
  horizon - clock w < Z.of_nat fuel * (250 * Millisecond) ->
  exists w1, waitForClearChannel (S fuel) c w = Done w1.
Proof.
  induction fuel as [|fuel IH]; intros w Hb Hlt;
    rewrite waitForClearChannel_step;
    destruct (any_receiving (receivers_now c w) w) eqn:Hany; eauto.
  - exfalso. apply existsb_exists in Hany as (r & Hin & Hr).
    apply Z.ltb_lt in Hr. unfold time_Now in Hr.
    pose proof (bounded_receivers_now c horizon w r Hb Hin). lia.
  - apply IH; [done|].
    destruct (wait_sleep_until (receivers_now c w) w) as [Hs _].
    pose proof (latest_deadline_ge_now (receivers_now c w) w) as Hge.
    unfold time_Now, Millisecond in *. lia.
Qed.

(** X20. The clear-channel wait ends once the incoming transmissions end:
    when no receiver ever has a deadline after some horizon, the wait, and
    with it [tx], returns within one round per 250 ms left until the
    horizon (plus one). *)
Theorem tx_returns_when_receptions_end (fuel : nat) (c : audioClient)
  (horizon : Z) (packets : list VoicePacket) (w : World) :
  bounded c horizon ->
  horizon - clock w < Z.of_nat fuel * (250 * Millisecond) ->
  (exists w1, waitForClearChannel (S fuel) c w = Done w1)
  /\ exists w', tx VoicePacket Encode frameLength (S fuel) c packets w
                = Done w'.
Proof.
  intros Hb Hlt. split; [by apply (waitForClearChannel_bounded c horizon)|].
  unfold tx.
  destruct (waitForClearChannel_bounded c horizon fuel (emit EvLock w) Hb Hlt)
    as [w1 ->].
  eauto.
Qed.

Lemma waitForClearChannel_waits fuel c w w1 :
  any_receiving (receivers_now c w) w = true ->
  waitForClearChannel fuel c w = Done w1 ->
  latest_deadline (receivers_now c w) w + 250 * Millisecond <= clock w1.
Proof.
  intros Hany. destruct fuel as [|fuel]; [done|].
  rewrite waitForClearChannel_step, Hany. intros Hw.
  destruct (wait_sleep_until (receivers_now c w) w) as [Hs _].
  match type of Hw with waitForClearChannel fuel c ?w2 = _ =>
    destruct (waitForClearChannel_extends fuel c w2) as (_ & _ & Hc) end.
  rewrite Hw in Hc. simpl in Hc. lia.
Qed.

(** X21. When some receiver is receiving as [tx] starts, no packet of the
    batch is written before the latest deadline among the receiving
    receivers plus 250 ms. *)
Theorem tx_waits_out_reception (fuel : nat) (c : audioClient)
  (packets : list VoicePacket) (w w' : World) :
  any_receiving (receivers_now c w) w = true ->
  tx VoicePacket Encode frameLength fuel c packets w = Done w' ->
  forall t b r,
    In (EvWrite t b r) (new_events w w') ->
    latest_deadline (receivers_now c w) w + 250 * Millisecond <= t.
Proof.
  intros Hany Htx t b r Hin.
  destruct (tx_Done _ _ _ _ _ Htx) as (w1 & Hwait & _ & _ & _ & Hle).
  specialize (Hle t b r Hin).
  pose proof (waitForClearChannel_waits fuel c (emit EvLock w) w1 Hany Hwait)
    as Hw.
  change (receivers_now c (emit EvLock w)) with (receivers_now c w) in Hw.
  change (latest_deadline (receivers_now c w) (emit EvLock w))
    with (latest_deadline (receivers_now c w) w) in Hw.
  lia.
Qed.

(** X22. The outcome of the scan of the receivers does not depend on the
    order in which the map is ranged over: it is the same for every
    arrangement of the receivers, and it is whether any receiver is
    receiving, with the latest deadline among those that are. *)
Theorem scan_order_irrelevant (c : audioClient) (rs : list receiver)
  (w : World) :
  rs ≡ₚ receivers_now c w ->
  scan rs w = scan (receivers_now c w) w
  /\ scan rs w = (any_receiving rs w, latest_deadline rs w)
  /\ (any_receiving rs w = true ->
      exists r, In r rs /\ isReceivingTransmission r w = true
                /\ latest_deadline rs w = deadline r).
Proof.
  intros Hp. split; [by apply scan_permutation|].
  split; [apply scan_spec|apply latest_deadline_attained].
Qed.

(** *** The times of the writes *)

Lemma writePackets_loop_ordered startTime packets : forall i0 w (i j : nat) ti tj,
  let w' := writePackets_loop VoicePacket Encode frameLength startTime i0
              packets w in
  (i <= j)%nat ->
  write_times (new_events w w') !! i = Some ti ->
  write_times (new_events w w') !! j = Some tj ->
  ti <= tj.
Proof.
  induction packets as [|vp rest IH]; intros i0 w i j ti tj; cbv zeta.
  - simpl. unfold new_events. rewrite drop_all. simpl.
    intros _ Hi. by rewrite lookup_nil in Hi.
  - simpl writePackets_loop. rewrite writePackets_loop_new.
    set (w1 := writePacket VoicePacket Encode frameLength startTime i0 vp w).
    pose proof (writePacket_events startTime i0 vp w) as Hev.
    pose proof (writePacket_spec startTime i0 vp w) as Hsp.
    cbv zeta in Hev, Hsp.
    destruct Hev as (_ & Hwt & _). destruct Hsp as (_ & Hc1 & _).
    fold w1 in Hwt, Hc1.
    pose proof (writePackets_loop_general startTime rest (i0 + 1) w1) as Hg.
    cbv zeta in Hg. destruct Hg as (_ & _ & Hw & _).
    specialize (IH (i0 + 1) w1). cbv zeta in IH. clearbody w1.
    unfold write_times in *. rewrite omap_app, Hwt.
    intros Hij Hi Hj. destruct i as [|i], j as [|j]; simpl in Hi, Hj.
    + injection Hi as <-. injection Hj as <-. lia.
    + injection Hi as <-. destruct (Hw j tj Hj) as [H1 _]. lia.
    + lia.
    + apply (IH i j ti tj); [lia|done|done].
Qed.

Lemma writePackets_quiet_times vp rest w :
  lapses w = [] ->
  let w' := writePackets VoicePacket Encode frameLength (vp :: rest) w in
  write_times (new_events w w') !! 0%nat = Some (clock w)
  /\ forall (k : nat) t,
       write_times (new_events w w') !! S k = Some t ->
       t = nominal_time frameLength (clock w) (Z.of_nat (S k)).
Proof.
  intros Hq. cbv zeta. unfold writePackets, time_Now.
  simpl writePackets_loop. rewrite writePackets_loop_new.
  pose proof (writePacket_events (clock w) 0 vp w) as Hev.
  cbv zeta in Hev. destruct Hev as (_ & Hwt & _).
  destruct (first_packet (clock w) vp w) as (Hd & Hsl & _ & Hc); [lia|].
  destruct (Hc Hq) as [Hc1 Hq1].
  unfold write_times in *. rewrite omap_app, Hwt.
  replace (nominal_time frameLength (clock w) 0 - clock (elapse w))
    with (clock w - Z.quot frameLength 2 - clock (elapse w))
    by (unfold nominal_time; lia).
  rewrite Hsl. simpl clock. rewrite (elapse_quiet w Hq).
  split; [done|]. intros k t Hk. simpl in Hk.
  rewrite Nat2Z.inj_succ.
  replace (Z.succ (Z.of_nat k)) with (0 + 1 + Z.of_nat k) by lia.
  eapply (writePackets_loop_nominal (clock w) rest (0 + 1));
    [exact Hq1| |exact Hk].
  rewrite Hc1. pose proof half_frame. unfold nominal_time. lia.
Qed.

(** X23. The packets of a batch go out in time order whatever the
    scheduler does: a later packet is never written at an earlier time
    than one before it.  With no scheduler lapse the second packet follows
    the first after [frameLength - frameLength/2], and from then on
    consecutive packets are written exactly [frameLength] apart. *)
Theorem writePackets_time_order (packets : list VoicePacket) (w : World) :
  let wt :=
    write_times (new_events w (writePackets VoicePacket Encode frameLength
                                 packets w)) in
  (forall (i j : nat) ti tj,
     (i <= j)%nat -> wt !! i = Some ti -> wt !! j = Some tj -> ti <= tj)
  /\ (lapses w = [] ->
      forall t0 t1,
        wt !! 0%nat = Some t0 -> wt !! 1%nat = Some t1 ->
        t1 - t0 = frameLength - Z.quot frameLength 2)
  /\ (lapses w = [] ->
      forall (i : nat) t t',
        wt !! S i = Some t -> wt !! S (S i) = Some t' ->
        t' - t = frameLength).
Proof.
  cbv zeta. split; [|split].
  - intros i j ti tj. apply (writePackets_loop_ordered (clock w) packets 0 w).
  - intros Hq t0 t1 H0 H1. destruct packets as [|vp rest].
    { unfold writePackets in H0. simpl in H0. unfold new_events in H0.
      rewrite drop_all in H0. done. }
    pose proof (writePackets_quiet_times vp rest w Hq) as Hqt.
    cbv zeta in Hqt. destruct Hqt as [Hz Hs].
    rewrite Hz in H0. injection H0 as <-.
    rewrite (Hs 0%nat t1 H1). unfold nominal_time. lia.
  - intros Hq i t t' H1 H2. destruct packets as [|vp rest].
    { unfold writePackets in H1. simpl in H1. unfold new_events in H1.
      rewrite drop_all in H1. done. }
    pose proof (writePackets_quiet_times vp rest w Hq) as Hqt.
    cbv zeta in Hqt. destruct Hqt as [_ Hs].
    rewrite (Hs i t H1), (Hs (S i) t' H2). unfold nominal_time.
    rewrite !Nat2Z.inj_succ. lia.
Qed.

End AudioFacts.

(** * The scenarios of the specification, run on the code *)

Section Scenarios.
Import rt types data audio scenario.

(** Scenarios 2 to 4: Viper joins on 251.0 MHz, a hostile peer is kept out,
    Viper leaves when it retunes to 243.0 MHz; an entry without radios is
    ignored. *)
Lemma syncClient_single_peer_rule_witness :
  syncClient self viper_off w0 = (self, w0)
  /\ clients (syncClient self viper w0).1 = <["A" := viper]> ∅
  /\ clients (syncClient self hostile w0).1 = delete "B" ∅
  /\ clients (syncClient (syncClient self viper w0).1
                (peer "Viper" "A" Blue [radio243]) w0).1
     = delete "A" (<["A" := viper]> ∅).
Proof.
  split; [|split; [|split]].
  - apply (syncClient_single_peer_rule self viper_off w0). by right.
  - apply (syncClient_single_peer_rule self viper w0);
      [discriminate|discriminate|by left|reflexivity].
  - apply (syncClient_single_peer_rule self hostile w0);
      [discriminate|discriminate|].
    intros [[H|H] _]; discriminate H.
  - apply (syncClient_single_peer_rule (syncClient self viper w0).1
             (peer "Viper" "A" Blue [radio243]) w0);
      [discriminate|discriminate|].
    intros [_ H]. discriminate H.
Defined.

(** Viper is in the directory; an Update for Viper without radios leaves
    it there. *)
Lemma empty_radios_keep_stale_entry_witness :
  clients (handleMessage marshal (syncClient self viper w0).1
             (message MessageUpdate viper_off []) w0).1 !! "A"
  = Some viper.
Proof.
  apply (proj1 (empty_radios_keep_stale_entry marshal
                  (syncClient self viper w0).1 viper_off viper w0
                  eq_refl eq_refl)
           (message MessageUpdate viper_off []) eq_refl (or_introl eq_refl)).
Defined.

(** A message without version is refused; a message with one is written
    as one line. *)
Lemma Send_writes_json_line_witness :
  (is_Some (Send marshal (Message.mk "" MessagePing viper [] "") w0).1
   /\ (Send marshal (Message.mk "" MessagePing viper [] "") w0).2 = w0)
  /\ trace (Send marshal (message MessagePing viper []) w0).2
     = [EvWrite 0 (list_byte_of_string "2.1.0.2" ++ [Byte.x0a]) None].
Proof.
  split.
  - apply (Send_writes_json_line marshal
             (Message.mk "" MessagePing viper [] "") w0). reflexivity.
  - pose proof (Send_writes_json_line marshal (message MessagePing viper []) w0)
      as [_ H].
    apply H. discriminate.
Defined.

(** C4 fails on the code: in a run where every write succeeds, the ready
    channel is closed before anything has been written; and in a run where
    the Sync message cannot be written, [Run] returns an error after having
    closed the ready channel. *)
Lemma Run_ready_after_handshake_counterexample :
  ~ ready_after_handshake (trace (data.Run marshal self [data.CtxDone true] w0).2)
  /\ (data.Run marshal self [data.CtxDone true] w0).1.1 = data.Returned None
  /\ In (EvCloseChan "readyCh") (trace (data.Run marshal self [] w_fail).2)
  /\ (exists e, (data.Run marshal self [] w_fail).1.1 = data.Returned (Some e)).
Proof.
  split; [|split; [|split]].
  - intros (n & Hn & Hle). vm_compute in Hn. injection Hn as <-. lia.
  - reflexivity.
  - vm_compute. tauto.
  - eexists. vm_compute. reflexivity.
Defined.

Lemma Run_ready_then_handshake_witness :
  extends (Run_prelude w0) (data.Run marshal self [data.CtxDone true] w0).2
  /\ (exists e, (data.Run marshal self [data.CtxDone true] w_fail).1.1
                = data.Returned (Some e)).
Proof.
  split.
  - apply (Run_ready_then_handshake marshal self [data.CtxDone true] w0).
  - pose proof (Run_ready_then_handshake marshal self [data.CtxDone true] w_fail)
      as (_ & H & _).
    apply H. vm_compute. eauto.
Defined.




(** C5 fails on the code: the write of the only packet fails, the failure
    is logged, and [Run] returns nil when the context is canceled. *)
Lemma Run_write_failure_counterexample :
  In (EvWrite 0 packet1 (Some (errors_New "write: connection refused")))
     (trace (audio.Run Bytes Encode frame 5 (audio_client idle false)
               [RecvPackets [packet1]; audio.CtxDone] w_fail).2)
  /\ (audio.Run Bytes Encode frame 5 (audio_client idle false)
        [RecvPackets [packet1]; audio.CtxDone] w_fail).1
     = audio.Returned None.
Proof. split; [vm_compute; tauto|reflexivity]. Defined.

Lemma Run_logs_write_failures_witness :
  (audio.Run Bytes Encode frame 5 (audio_client idle false)
     [RecvPackets [packet1]; audio.CtxDone] w_fail).1 = audio.Returned None
  /\ exists at_ d t,
       trace (writePacket Bytes Encode frame 0 0 packet1 w_fail)
       = [EvSleep at_ d;
          EvWrite t packet1 (Some (errors_New "write: connection refused"));
          EvLog LError "failed to transmit voice packet"].
Proof.
  pose proof (Run_logs_write_failures Encode frame 5 (audio_client idle false)
                [RecvPackets [packet1]; audio.CtxDone] w_fail) as H.
  cbv zeta in H. destruct H as (_ & H1 & H2 & _). split.
  - apply H1. reflexivity.
  - apply (H2 0 0 packet1 w_fail (errors_New "write: connection refused")).
    reflexivity.
Defined.

(** C7 fails on the code at packet 0: it is written at the start time (0),
    not half a frame before it (-20 ms). *)
Lemma writePackets_first_packet_counterexample :
  write_times (new_events w0 (writePackets Bytes Encode frame
                                [packet1; packet2] w0)) !! 0%nat
  = Some 0
  /\ nominal_time frame (time_Now w0) 0 = -20 * Millisecond
  /\ ~ (forall (i : nat) t,
          write_times (new_events w0 (writePackets Bytes Encode frame
                                        [packet1; packet2] w0)) !! i
          = Some t ->
          t = nominal_time frame (time_Now w0) (Z.of_nat i)).
Proof.
  split; [reflexivity|]. split; [reflexivity|].
  intros H. specialize (H 0%nat 0 eq_refl). discriminate H.
Defined.

Lemma frame_positive : 0 < frame.
Proof. reflexivity. Defined.

(** A batch of two packets in the quiet world: written at 0 and at 20 ms;
    the sleep before packet 0 is asked to last -20 ms and returns at once,
    the sleep before packet 1 is asked at 0 to last 20 ms. *)
Lemma writePackets_pacing_witness :
  0 < frame
  /\ lapses w0 = []
  /\ write_times (new_events w0 (writePackets Bytes Encode frame
                                   [packet1; packet2] w0)) !! 1%nat
     = Some (20 * Millisecond)
  /\ 20 * Millisecond = nominal_time frame (time_Now w0) 1
  /\ (2 - 1) * Z.quot frame 2 <= 20 * Millisecond - time_Now w0
  /\ sleeps (new_events w0 (writePackets Bytes Encode frame
                              [packet1; packet2] w0))
     = [(0, - (20 * Millisecond)); (0, 20 * Millisecond)]
  /\ - (20 * Millisecond) <= 0
  /\ (time_Now w0 <= 0
      /\ 0 + Z.max 0 (20 * Millisecond) <= 20 * Millisecond
      /\ (20 * Millisecond <= 0 -> 20 * Millisecond = 0)).
Proof.
  pose proof (writePackets_pacing Encode frame frame_positive
                [packet1; packet2] w0) as H.
  cbv zeta in H. destruct H as (_ & _ & _ & H & Hlast & Hpair & Hfirst).
  split; [reflexivity|]. split; [reflexivity|]. split; [reflexivity|].
  split; [|split; [|split; [|split]]].
  - apply (H eq_refl 1%nat (20 * Millisecond)). reflexivity.
  - apply (Hlast (20 * Millisecond)). reflexivity.
  - reflexivity.
  - apply (Hfirst 0 (- (20 * Millisecond))). reflexivity.
  - apply (Hpair 1%nat 0 (20 * Millisecond) (20 * Millisecond));
      reflexivity.
Defined.

(** The same batch when time is lost on the way.  When encoding packet 0
    takes 5 ms, packet 0 is written at 5 ms, the instant at which its
    sleep is requested, and packet 1 at 20 ms.  When the first write takes
    100 ms to return, the instant of packet 1 is 80 ms past at the request
    and packet 1 is written at once, at 100 ms. *)
Lemma writePackets_late_example :
  write_times (new_events w_slow_encode
                 (writePackets Bytes Encode frame [packet1; packet2]
                    w_slow_encode))
  = [5 * Millisecond; 20 * Millisecond]
  /\ sleeps (new_events w_slow_encode
                (writePackets Bytes Encode frame [packet1; packet2]
                   w_slow_encode))
     = [(5 * Millisecond, - (25 * Millisecond));
        (5 * Millisecond, 15 * Millisecond)]
  /\ write_times (new_events w_slow_write
                    (writePackets Bytes Encode frame [packet1; packet2]
                       w_slow_write))
     = [0; 100 * Millisecond]
  /\ sleeps (new_events w_slow_write
                (writePackets Bytes Encode frame [packet1; packet2]
                   w_slow_write))
     = [(0, - (20 * Millisecond)); (100 * Millisecond, - (80 * Millisecond))].
Proof. repeat split; reflexivity. Qed.

Lemma first_packet_written_immediately_witness :
  0 < frame
  /\ time_Now w0 - Z.quot frame 2 - time_Now (elapse w0) <= 0.
Proof.
  split; [reflexivity|].
  apply (first_packet_written_immediately Encode frame frame_positive packet1
           [packet2] w0).
Defined.

(** ** The directory, read and kept *)

(** Viper is in the directory: it is found by name; nobody is found in an
    empty directory. *)
Lemma IsOnFrequency_iff_witness :
  IsOnFrequency (syncClient self viper w0).1 "Viper" = true
  /\ IsOnFrequency self "Viper" = false.
Proof.
  split.
  - apply (proj1 (IsOnFrequency_iff (syncClient self viper w0).1 "Viper")).
    exists "A", viper. repeat split; reflexivity.
  - apply (proj2 (IsOnFrequency_iff self "Viper")). reflexivity.
Defined.

Lemma ClientsOnFrequency_bounds_witness :
  IsOnFrequency (syncClient self viper w0).1 "Viper" = true
  /\ 1 <= ClientsOnFrequency (syncClient self viper w0).1.
Proof.
  split; [reflexivity|].
  apply (proj2 (proj2 (ClientsOnFrequency_bounds (syncClient self viper w0).1))
           "Viper").
  reflexivity.
Defined.

(** An Update for the hostile peer B leaves Viper's entry A alone. *)
Lemma handleMessage_frame_witness :
  ~ named (message MessageUpdate hostile []) "A"
  /\ clients (handleMessage marshal (syncClient self viper w0).1
                (message MessageUpdate hostile []) w0).1 !! "A"
     = Some viper.
Proof.
  assert (~ named (message MessageUpdate hostile []) "A") as Hn.
  { intros [H|(o & [] & _)]. discriminate H. }
  split; [exact Hn|].
  apply (proj1 (handleMessage_frame marshal (syncClient self viper w0).1
                  (message MessageUpdate hostile []) w0 "A") Hn).
Defined.

(** Viper on 251.0 MHz, then on 243.0 MHz: as if only the second had come. *)
Lemma syncClient_last_wins_witness :
  clients (syncClient (syncClient self viper w0).1
             (peer "Viper" "A" Blue [radio243]) w0).1
  = clients (syncClient self (peer "Viper" "A" Blue [radio243]) w0).1.
Proof.
  apply (syncClient_last_wins self viper (peer "Viper" "A" Blue [radio243])
           w0 w0 eq_refl).
  discriminate.
Defined.

Lemma join_then_leave_witness :
  clients (handleMessages marshal self
             [message MessageUpdate viper [];
              message MessageClientDisconnect viper []] w0).1
  = clients self.
Proof.
  apply (join_then_leave marshal self viper (message MessageUpdate viper [])
           (message MessageClientDisconnect viper []) w0);
    reflexivity.
Defined.

(** A Ping leaves the client as it is. *)
Lemma handleMessage_other_types_witness :
  (handleMessage marshal (syncClient self viper w0).1
     (message MessagePing viper []) w0).1
  = (syncClient self viper w0).1.
Proof.
  apply (proj1 (handleMessage_other_types marshal (syncClient self viper w0).1
                  (message MessagePing viper []) w0));
    discriminate.
Defined.

(** ** [Run] and its reader *)

(** The Sync message cannot be written: the error [Run] returns unwraps
    to the error of the connection. *)
Lemma Run_error_cause_witness :
  (data.Run marshal self [data.CtxDone true] w_fail).1.1
  = data.Returned
      (Some (fmt_Errorf "initial sync failed"
               (fmt_Errorf "sync failed"
                  (fmt_Errorf "failed to write message"
                     (errors_New "write: connection refused")))))
  /\ ((exists m e, marshal m = inr e
                   /\ Message.Client m = clientInfo self
                   /\ errors_New "write: connection refused" = cause e)
      \/ (exists e, In (Some e) (write_errs w_fail)
                    /\ errors_New "write: connection refused" = cause e)
      \/ (exists e, In (RecvError e) [data.CtxDone true]
                    /\ errors_New "write: connection refused" = cause e)).
Proof.
  split; [reflexivity|].
  apply (Run_error_cause marshal self [data.CtxDone true] w_fail
           (fmt_Errorf "initial sync failed"
              (fmt_Errorf "sync failed"
                 (fmt_Errorf "failed to write message"
                    (errors_New "write: connection refused"))))).
  reflexivity.
Defined.

(** A message that comes after the cancellation is not handled. *)
Lemma Run_stops_at_first_stop_witness :
  data.Run marshal self
    ([RecvMessage (message MessageUpdate viper [])]
     ++ data.CtxDone true :: [RecvMessage (message MessageUpdate hostile [])])
    w0
  = data.Run marshal self
      ([RecvMessage (message MessageUpdate viper [])] ++ [data.CtxDone true])
      w0.
Proof.
  apply (proj2 (Run_stops_at_first_stop marshal self [] w0)
           [RecvMessage (message MessageUpdate viper [])]
           (data.CtxDone true)
           [RecvMessage (message MessageUpdate hostile [])]).
  reflexivity.
Defined.

(** A line that does not parse is passed over. *)
Lemma reader_deliveries_witness :
  unmarshal [] = inr (errors_New "unexpected end of JSON input")
  /\ (reader unmarshal [ReadLine []; ReadLine [Byte.x7b]]).2
     = (reader unmarshal [ReadLine [Byte.x7b]]).2.
Proof.
  split; [reflexivity|].
  apply (proj1 (proj2 (reader_deliveries unmarshal []))
           [] [ReadLine [Byte.x7b]]
           (errors_New "unexpected end of JSON input")).
  reflexivity.
Defined.

(** A line is read, then the connection breaks: [Run] returns the error. *)
Lemma read_error_is_fatal_witness :
  (data.Run marshal self
     (reader unmarshal
        [ReadLine [Byte.x7b]; ReadEOF [];
         ReadFailed [] (errors_New "read: connection reset by peer")]).2
     w0).1.1
  = data.Returned
      (Some (fmt_Errorf "data client error"
               (errors_New "read: connection reset by peer"))).
Proof.
  apply (read_error_is_fatal marshal unmarshal self
           [ReadLine [Byte.x7b]; ReadEOF [];
            ReadFailed [] (errors_New "read: connection reset by peer")]
           (errors_New "read: connection reset by peer") w0
           (sync marshal self (Run_prelude w0)).2
           (connectExternalAWACSMode marshal self
              (log LInfo "connecting to external AWACS mode"
                 (sync marshal self (Run_prelude w0)).2)).2);
    reflexivity.
Defined.

(** ** Transmissions *)

Lemma bounded_receiving :
  bounded (audio_client receiving false) (300 * Millisecond).
Proof.
  intros k cell Hk t. simpl in Hk.
  apply lookup_singleton_Some in Hk as [_ <-]. simpl. lia.
Defined.

(** Scenario 6 again: the two packets go out in order, after the wait. *)
Lemma tx_writes_batch_in_order_witness :
  write_bytes
    (new_events w0
       (world_of (tx Bytes Encode frame 2 (audio_client receiving false)
                    [packet1; packet2] w0)))
  = [packet1; packet2].
Proof.
  apply (tx_writes_batch_in_order Encode frame 2 (audio_client receiving false)
           [packet1; packet2] w0).
  vm_compute. reflexivity.
Defined.

(** A muted client that is handed a batch of two packets, then stopped:
    its transmit loop waits out the reception and writes nothing. *)
Lemma muted_never_writes_witness :
  mute (audio_client receiving true) = true
  /\ writes (world_of (transmit Bytes Encode frame 2
                         (audio_client receiving true)
                         [RecvPackets [packet1; packet2]; audio.CtxDone] w0))
     = writes w0
  /\ writes w0 = [].
Proof.
  split; [reflexivity|]. split; [|reflexivity].
  apply (muted_never_writes Encode frame 2 (audio_client receiving true)
           [RecvPackets [packet1; packet2]; audio.CtxDone] w0).
  reflexivity.
Defined.

Lemma transmit_pause_witness :
  exists d w2,
    500 * Millisecond <= d < 1000 * Millisecond
    /\ trace w2
       = trace (world_of (tx Bytes Encode frame 2 (audio_client idle false)
                            [packet1] w0))
         ++ [EvSleep 0 d]
    /\ 0 + d <= clock w2
    /\ transmit Bytes Encode frame 2 (audio_client idle false)
         [RecvPackets [packet1]; audio.CtxDone] w0
       = transmit Bytes Encode frame 2 (audio_client idle false)
           [audio.CtxDone] w2.
Proof.
  apply (transmit_pause Encode frame 2 (audio_client idle false) [packet1]
           [audio.CtxDone] w0
           (world_of (tx Bytes Encode frame 2 (audio_client idle false)
                        [packet1] w0))).
  vm_compute. reflexivity.
Defined.


(** The reception ends at 300 ms: two rounds are enough. *)
Lemma tx_returns_when_receptions_end_witness :
  exists w', tx Bytes Encode frame 3 (audio_client receiving false)
               [packet1] w0 = Done w'.
Proof.
  apply (tx_returns_when_receptions_end Encode frame 2
           (audio_client receiving false) (300 * Millisecond) [packet1] w0
           bounded_receiving).
  reflexivity.
Defined.

(** Scenario 6: the deadline is at 300 ms; the first write is at 550 ms. *)
Lemma tx_waits_out_reception_witness :
  any_receiving (receivers_now (audio_client receiving false) w0) w0 = true
  /\ In (EvWrite (550 * Millisecond) packet1 None)
        (new_events w0
           (world_of (tx Bytes Encode frame 2 (audio_client receiving false)
                        [packet1] w0)))
  /\ latest_deadline (receivers_now (audio_client receiving false) w0) w0
     + 250 * Millisecond <= 550 * Millisecond.
Proof.
  assert (In (EvWrite (550 * Millisecond) packet1 None)
             (new_events w0
                (world_of (tx Bytes Encode frame 2
                             (audio_client receiving false) [packet1] w0))))
    as Hin by (vm_compute; tauto).
  split; [reflexivity|]. split; [exact Hin|].
  apply (tx_waits_out_reception Encode frame 2 (audio_client receiving false)
           [packet1] w0
           (world_of (tx Bytes Encode frame 2 (audio_client receiving false)
                        [packet1] w0))
           eq_refl eq_refl (550 * Millisecond) packet1 None Hin).
Defined.

(** Three receivers, ranged over in the order of the map and in the
    opposite order: the two arrangements differ, the scans agree. *)
Lemma scan_order_irrelevant_witness :
  reverse (receivers_now (audio_client3 false) w0)
    ≡ₚ receivers_now (audio_client3 false) w0
  /\ reverse (receivers_now (audio_client3 false) w0)
     <> receivers_now (audio_client3 false) w0
  /\ length (receivers_now (audio_client3 false) w0) = 3%nat
  /\ scan (reverse (receivers_now (audio_client3 false) w0)) w0
     = scan (receivers_now (audio_client3 false) w0) w0
  /\ scan (reverse (receivers_now (audio_client3 false) w0)) w0
     = (true, 300 * Millisecond)
  /\ exists r,
       In r (reverse (receivers_now (audio_client3 false) w0))
       /\ isReceivingTransmission r w0 = true
       /\ deadline r = 300 * Millisecond.
Proof.
  assert (reverse (receivers_now (audio_client3 false) w0)
            ≡ₚ receivers_now (audio_client3 false) w0) as Hp
    by apply reverse_Permutation.
  destruct (scan_order_irrelevant (audio_client3 false)
              (reverse (receivers_now (audio_client3 false) w0)) w0 Hp)
    as (Hord & Hval & Hatt).
  split; [exact Hp|]. split; [vm_compute; discriminate|].
  split; [reflexivity|]. split; [exact Hord|].
  split; [rewrite Hval; reflexivity|].
  destruct (Hatt eq_refl) as (r & Hin & Hrec & Hdl).
  exists r. split; [exact Hin|]. split; [exact Hrec|].
  rewrite <- Hdl. reflexivity.
Defined.

(** Three packets in the quiet world: 0, 20 ms, 60 ms. *)
Lemma writePackets_time_order_witness :
  write_times (new_events w0 (writePackets Bytes Encode frame
                                [packet1; packet2; packet1] w0))
  = [0; 20 * Millisecond; 60 * Millisecond]
  /\ 0 <= 20 * Millisecond
  /\ 60 * Millisecond - 20 * Millisecond = frame.
Proof.
  pose proof (writePackets_time_order Encode frame frame_positive
                [packet1; packet2; packet1] w0) as H.
  cbv zeta in H. destruct H as (Hord & _ & Hgap).
  split; [reflexivity|]. split.
  - apply (Hord 0%nat 1%nat 0 (20 * Millisecond)); [lia| |]; reflexivity.
  - apply (Hgap eq_refl 0%nat (20 * Millisecond) (60 * Millisecond));
      reflexivity.
Defined.

(** A Sync naming Viper and the hostile peer, and the two Updates. *)
Lemma Sync_as_Updates_witness :
  clients (handleMessage marshal self
             (message MessageSync viper [viper; hostile]) w0).1
  = clients (handleMessages marshal self
               [message MessageUpdate viper []; message MessageUpdate hostile []]
               w0).1.
Proof.
  apply (Sync_as_Updates marshal self
           (message MessageSync viper [viper; hostile])
           [message MessageUpdate viper []; message MessageUpdate hostile []]
           w0 w0 eq_refl).
  repeat constructor.
Defined.

End Scenarios.
